(** * Cavity construction of Delaunay mesh refinement

    A shallow embedding of [class Cavity]
    (lonestar/scientific/cpu/delaunayrefinement/Cavity.h) and the properties
    of its operations [getOpposite], [initialize], [build], [expand],
    [computePost] and [update].

    The embedding is sequential: one iteration owns the cavity and the graph,
    so the lock acquisition performed by [MethodFlag::WRITE] never signals a
    conflict and the access mode is dropped from the graph operations. *)

From stdpp Require Import base relations gmap sets list strings.
From Stdlib Require Import ZArith Lia Ascii.

#[local] Set Warnings "-clear-no-such-hyp".

Local Open Scope Z_scope.
Local Open Scope nat_scope.

(** Graph nodes are opaque stable identifiers. *)
Abbreviation GNode := nat (only parsing).

(** ** Outcome of a run

    [Ok] is normal return. [Die msg] is [GALOIS_DIE(msg)]: the macro reports
    its arguments and aborts the whole run, so nothing that follows the call
    is executed and the outcome carries the text handed to the macro.
    [OutOfFuel] marks a loop that did not finish within the step budget of
    the model. *)
Inductive outcome (A : Type) : Type :=
  | Ok (a : A)
  | Die (msg : string)
  | OutOfFuel.
Arguments Ok {A} a.
Arguments Die {A} msg.
Arguments OutOfFuel {A}.

#[export] Instance outcome_ret : MRet outcome := fun A a => Ok a.
#[export] Instance outcome_bind : MBind outcome := fun A B f m =>
  match m with
  | Ok a => f a
  | Die msg => Die msg
  | OutOfFuel => OutOfFuel
  end.

(** A [for] loop over a range whose body may abort the run. *)
Fixpoint for_each {A S : Type} (body : S → A → outcome S) (xs : list A) (s : S)
    : outcome S :=
  match xs with
  | [] => Ok s
  | x :: xs' => s' ← body s x; for_each body xs' s'
  end.

(** ** Geometry

    [Tuple], [Edge] and [Element] are declared outside the cavity header;
    the cavity uses them only through the operations below, which are taken as
    the interface of the geometry. *)
Class Geometry := {
  Tuple : Type;
  Edge : Type;
  Element : Type;
  (** [Tuple::operator==]; [a != b] is its negation *)
  Tuple_eqb : Tuple → Tuple → bool;
  (** [Edge::operator==] *)
  Edge_eqb : Edge → Edge → bool;
  (** [Edge::getPoint(i)] *)
  Edge_getPoint : Edge → nat → Tuple;
  (** [Element::getPoint(i)] *)
  getPoint : Element → nat → Tuple;
  getObtuse : Element → Tuple;
  isObtuse : Element → bool;
  isBad : Element → bool;
  getCenter : Element → Tuple;
  (** [Element::dim()]: 2 for a segment, 3 for a triangle *)
  Element_dim : Element → Z;
  inCircle : Element → Tuple → bool;
  isRelated : Element → Element → bool;
  getRelatedEdge : Element → Element → Edge;
  (** the constructors [Element(a, b)] and [Element(a, b, c)] *)
  Element2 : Tuple → Tuple → Element;
  Element3 : Tuple → Tuple → Tuple → Element;
}.

(** ** Boundary edges

    Modelled from the spec: the struct [EdgeTuple] is not part of the cavity
    header. The cavity builds it as [EdgeTuple(src, dst, data)] and reads the
    fields [src], [dst] and [data]; connections are "deduplicated by edge
    identity", which is the field-wise comparison [EdgeTuple_eqb]. *)
Record EdgeTuple `{Geometry} := mkEdgeTuple {
  src : GNode;
  dst : GNode;
  data : Edge;
}.

Definition EdgeTuple_eqb `{Geometry} (a b : EdgeTuple) : bool :=
  bool_decide (src a = src b) && bool_decide (dst a = dst b)
  && Edge_eqb (data a) (data b).

(** [std::find(first, last, value) != last] with the comparison
    [*it == value]. *)
Definition found `{Geometry} (l : list EdgeTuple) (value : EdgeTuple) : bool :=
  existsb (λ it, EdgeTuple_eqb it value) l.

(** ** Graph store

    Modelled from the spec: the [Graph] class is not part of the cavity
    header. Following the spec it is an arena of elements indexed by stable
    identifiers with adjacency kept as identifier lists. [createNode] always
    succeeds and hands out a fresh identifier without making the node a
    member; [addNode] and [removeNode] change membership, [containsNode]
    tests it; removing a node drops every edge that refers to it; edges are
    undirected. [update] is the only caller of [addNode], [removeNode] and
    [addEdge] and passes [UNPROTECTED], the mode under which they cannot
    fail. *)
Module Graph.
Section defs.
Context `{Geometry}.

Record t := mk {
  payload : GNode → Element;
  nextId : GNode;
  nodes : gset GNode;
  adj : GNode → list GNode;
}.

Definition getData (g : t) (n : GNode) : Element := payload g n.

Definition containsNode (g : t) (n : GNode) : bool :=
  bool_decide (n ∈ nodes g).

(** the destinations visited from [edge_begin(n)] to [edge_end(n)] *)
Definition edges (g : t) (n : GNode) : list GNode := adj g n.

Definition createNode (g : t) (e : Element) : t * GNode :=
  ({| payload := λ m, if bool_decide (m = nextId g) then e else payload g m;
      nextId := S (nextId g);
      nodes := nodes g;
      adj := λ m, if bool_decide (m = nextId g) then [] else adj g m |},
   nextId g).

Definition addNode (g : t) (n : GNode) : t :=
  {| payload := payload g; nextId := nextId g;
     nodes := {[ n ]} ∪ nodes g; adj := adj g |}.

Definition removeNode (g : t) (n : GNode) : t :=
  {| payload := payload g; nextId := nextId g;
     nodes := nodes g ∖ {[ n ]};
     adj := λ m, if bool_decide (m = n) then []
                 else filter (λ d, d ≠ n) (adj g m) |}.

Definition link (l : list GNode) (d : GNode) : list GNode :=
  if bool_decide (d ∈ l) then l else l ++ [d].

Definition addEdge (g : t) (s d : GNode) : t :=
  {| payload := payload g; nextId := nextId g; nodes := nodes g;
     adj := λ m, let l := if bool_decide (m = s) then link (adj g m) d
                          else adj g m in
                 if bool_decide (m = d) then link l s else l |}.

(** Every member and every edge end is an allocated identifier, and edges
    only connect members. *)
Definition wf (g : t) : Prop :=
  (∀ n, n ∈ nodes g → n < nextId g) ∧
  (∀ n m, m ∈ adj g n → m ∈ nodes g).
End defs.
End Graph.

(** ** The two subgraphs of a cavity

    Modelled from the spec: [PreGraph] and [PostGraph] are not part of the
    cavity header. [pre] is the collection of nodes known to belong to the
    cavity, [post] the collection of new nodes plus the edges to insert with
    them. Both keep insertion order; [addNode] does not look for duplicates
    (the cavity tests [containsNode] itself before it adds). *)
Module PreGraph.
Definition t := list GNode.
Definition reset (p : t) : t := [].
Definition containsNode (p : t) (n : GNode) : bool := bool_decide (n ∈ p).
Definition addNode (p : t) (n : GNode) : t := p ++ [n].
End PreGraph.

Module PostGraph.
Section defs.
Context `{Geometry}.

Record t := mk {
  nodes : list GNode;
  edges : list EdgeTuple;
}.

Definition reset (p : t) : t := {| nodes := []; edges := [] |}.
Definition addNode (p : t) (n : GNode) : t :=
  {| nodes := nodes p ++ [n]; edges := edges p |}.
Definition addEdge (p : t) (s d : GNode) (e : Edge) : t :=
  {| nodes := nodes p; edges := edges p ++ [mkEdgeTuple _ s d e] |}.
End defs.
End PostGraph.

(** ** The cavity *)
Section cavity.
Context `{Geometry}.

(** The fields of [class Cavity]. The graph pointer is passed to every
    operation instead of being stored. [centerElement] points into the
    graph's payload, which no operation of the cavity overwrites, so the
    pointer is kept as the element it points to. [frontier] is only used
    as a stack ([push_back], [back], [pop_back], [empty], [clear]); the head
    of the list is the back of the vector. *)
Record Cavity := mkCavity {
  center : Tuple;
  centerNode : GNode;
  frontier : list GNode;
  pre : PreGraph.t;
  post : PostGraph.t;
  connections : list EdgeTuple;
  centerElement : Element;
  dim : Z;
}.

Definition set_center (v : Tuple) (c : Cavity) : Cavity :=
  mkCavity v (centerNode c) (frontier c) (pre c) (post c) (connections c)
           (centerElement c) (dim c).
Definition set_centerNode (v : GNode) (c : Cavity) : Cavity :=
  mkCavity (center c) v (frontier c) (pre c) (post c) (connections c)
           (centerElement c) (dim c).
Definition set_frontier (v : list GNode) (c : Cavity) : Cavity :=
  mkCavity (center c) (centerNode c) v (pre c) (post c) (connections c)
           (centerElement c) (dim c).
Definition set_pre (v : PreGraph.t) (c : Cavity) : Cavity :=
  mkCavity (center c) (centerNode c) (frontier c) v (post c) (connections c)
           (centerElement c) (dim c).
Definition set_post (v : PostGraph.t) (c : Cavity) : Cavity :=
  mkCavity (center c) (centerNode c) (frontier c) (pre c) v (connections c)
           (centerElement c) (dim c).
Definition set_connections (v : list EdgeTuple) (c : Cavity) : Cavity :=
  mkCavity (center c) (centerNode c) (frontier c) (pre c) (post c) v
           (centerElement c) (dim c).
Definition set_centerElement (v : Element) (c : Cavity) : Cavity :=
  mkCavity (center c) (centerNode c) (frontier c) (pre c) (post c)
           (connections c) v (dim c).
Definition set_dim (v : Z) (c : Cavity) : Cavity :=
  mkCavity (center c) (centerNode c) (frontier c) (pre c) (post c)
           (connections c) (centerElement c) v.

(** *** getOpposite *)

(** The test of the loop body: the edge shared with [neighbor] does not
    contain the obtuse point. *)
Definition avoidsObtuse (g : Graph.t) (element : Element) (neighbor : GNode)
    : bool :=
  let elementTuple := getObtuse element in
  let edgeData := getRelatedEdge element (Graph.getData g neighbor) in
  negb (Tuple_eqb elementTuple (Edge_getPoint edgeData 0))
  && negb (Tuple_eqb elementTuple (Edge_getPoint edgeData 1)).

Fixpoint getOpposite_loop (g : Graph.t) (element : Element)
    (ii : list GNode) : outcome GNode :=
  match ii with
  | [] => Die "unreachable"
  | neighbor :: ii' =>
      if avoidsObtuse g element neighbor then Ok neighbor
      else getOpposite_loop g element ii'
  end.

(** The [assert] on the number of edges is compiled out of release builds
    and is not part of the model. *)
Definition getOpposite (g : Graph.t) (node : GNode) : outcome GNode :=
  let element := Graph.getData g node in
  getOpposite_loop g element (Graph.edges g node).

(** *** initialize *)

(** The [while] loop of [initialize] on the two fields it assigns. *)
Fixpoint initialize_loop (fuel : nat) (g : Graph.t)
    (centerNode : GNode) (centerElement : Element)
    : outcome (GNode * Element) :=
  if Graph.containsNode g centerNode && isObtuse centerElement then
    match fuel with
    | O => OutOfFuel
    | S fuel' =>
        centerNode' ← getOpposite g centerNode;
        initialize_loop fuel' g centerNode' (Graph.getData g centerNode')
    end
  else Ok (centerNode, centerElement).

Definition initialize (fuel : nat) (g : Graph.t) (c : Cavity) (node : GNode)
    : outcome Cavity :=
  let c := set_pre (PreGraph.reset (pre c)) c in
  let c := set_post (PostGraph.reset (post c)) c in
  let c := set_connections [] c in
  let c := set_frontier [] c in
  let c := set_centerNode node c in
  let c := set_centerElement (Graph.getData g (centerNode c)) c in
  '(n, e) ← initialize_loop fuel g (centerNode c) (centerElement c);
  let c := set_centerElement e (set_centerNode n c) in
  let c := set_center (getCenter (centerElement c)) c in
  let c := set_dim (Element_dim (centerElement c)) c in
  let c := set_pre (PreGraph.addNode (pre c) (centerNode c)) c in
  let c := set_frontier (centerNode c :: frontier c) c in
  Ok c.

(** *** expand and build *)

(** The condition of the outer [if] of [expand]. *)
Definition isMember (c : Cavity) (next : GNode) (nextElement : Element)
    : bool :=
  negb (bool_decide (dim c = 2%Z)
        && bool_decide (Element_dim nextElement = 2%Z)
        && bool_decide (next ≠ centerNode c))
  && inCircle nextElement (center c).

(** [expand], with the call [build()] of its re-anchoring branch taken as
    the parameter [build]. *)
Definition expand_with (build : Cavity → outcome Cavity) (fuel : nat)
    (g : Graph.t) (c : Cavity) (node next : GNode) : outcome Cavity :=
  let nextElement := Graph.getData g next in
  if isMember c next nextElement then
    if bool_decide (Element_dim nextElement = 2%Z)
       && bool_decide (dim c ≠ 2%Z) then
      c' ← initialize fuel g c next;
      build c'
    else
      if negb (PreGraph.containsNode (pre c) next) then
        let c := set_pre (PreGraph.addNode (pre c) next) c in
        Ok (set_frontier (next :: frontier c) c)
      else Ok c
  else
    let edgeData := getRelatedEdge nextElement (Graph.getData g node) in
    let edge := mkEdgeTuple _ node next edgeData in
    if negb (found (connections c) edge) then
      Ok (set_connections (connections c ++ [edge]) c)
    else Ok c.

Fixpoint build (fuel : nat) (g : Graph.t) (c : Cavity) : outcome Cavity :=
  match frontier c with
  | [] => Ok c
  | curr :: rest =>
      match fuel with
      | O => OutOfFuel
      | S fuel' =>
          let c := set_frontier rest c in
          c' ← for_each (λ c neighbor,
                           expand_with (build fuel' g) fuel' g c curr neighbor)
                        (Graph.edges g curr) c;
          build fuel' g c'
      end
  end.

Definition expand (fuel : nat) (g : Graph.t) (c : Cavity) (node next : GNode)
    : outcome Cavity :=
  expand_with (build fuel g) fuel g c node next.

(** *** computePost *)

(** The inner loop over the nodes already in [post]. *)
Definition crossLink (g : Graph.t) (newNode : GNode) (newElement : Element)
    (p : PostGraph.t) : PostGraph.t :=
  foldl (λ p node,
           let element := Graph.getData g node in
           if isRelated element newElement then
             PostGraph.addEdge p newNode node
               (getRelatedEdge newElement element)
           else p)
        p (PostGraph.nodes p).

(** The body of the loop over [connections]. *)
Definition computePost_step (gc : Graph.t * Cavity) (tuple : EdgeTuple)
    : Graph.t * Cavity :=
  let '(g, c) := gc in
  let newElement := Element3 (center c) (Edge_getPoint (data tuple) 0)
                             (Edge_getPoint (data tuple) 1) in
  let other := if PreGraph.containsNode (pre c) (dst tuple)
               then src tuple else dst tuple in
  let otherElement := Graph.getData g other in
  let '(g, newNode) := Graph.createNode g newElement in
  let otherEdge := getRelatedEdge newElement otherElement in
  let p := PostGraph.addEdge (post c) newNode other otherEdge in
  let p := crossLink g newNode newElement p in
  (g, set_post (PostGraph.addNode p newNode) c).

Definition computePost_segment (g : Graph.t) (c : Cavity)
    : Graph.t * Cavity :=
  if bool_decide (Element_dim (centerElement c) = 2%Z) then
    let '(g, n1) :=
      Graph.createNode g (Element2 (center c) (getPoint (centerElement c) 0)) in
    let '(g, n2) :=
      Graph.createNode g (Element2 (center c) (getPoint (centerElement c) 1)) in
    (g, set_post (PostGraph.addNode (PostGraph.addNode (post c) n1) n2) c)
  else (g, c).

Definition computePost (g : Graph.t) (c : Cavity) : Graph.t * Cavity :=
  foldl computePost_step (computePost_segment g c) (connections c).

(** *** update

    [ctx] is the list of work items pushed so far; [ctx.push(n)] appends. *)
Definition update_remove (g : Graph.t) (c : Cavity) : Graph.t :=
  foldl Graph.removeNode g (pre c).

Definition update_add_step (gctx : Graph.t * list GNode) (n : GNode)
    : Graph.t * list GNode :=
  let '(g, ctx) := gctx in
  let g := Graph.addNode g n in
  let element := Graph.getData g n in
  (g, if isBad element then ctx ++ [n] else ctx).

Definition update_add (g : Graph.t) (c : Cavity) (ctx : list GNode)
    : Graph.t * list GNode :=
  foldl update_add_step (g, ctx) (PostGraph.nodes (post c)).

Definition update_edges (g : Graph.t) (c : Cavity) : Graph.t :=
  foldl (λ g edge, Graph.addEdge g (src edge) (dst edge))
        g (PostGraph.edges (post c)).

Definition update (g : Graph.t) (c : Cavity) (node : GNode)
    (ctx : list GNode) : Graph.t * list GNode :=
  let g := update_remove g c in
  let '(g, ctx) := update_add g c ctx in
  let g := update_edges g c in
  (g, if Graph.containsNode g node then ctx ++ [node] else ctx).

(** The whole iteration body up to the commit:
    [initialize(node); build(); computePost()]. *)
Definition grow (fuel : nat) (g : Graph.t) (c : Cavity) (node : GNode)
    : outcome (Graph.t * Cavity) :=
  c ← initialize fuel g c node;
  c ← build fuel g c;
  Ok (computePost g c).
(** *** Notions used to state the properties *)

(** [chain g node k t]: the obtuse-opposite jumps from [node] stop after
    [k] jumps at [t], an element that is not obtuse or a node the graph does
    not contain. *)
Inductive chain (g : Graph.t) : GNode → nat → GNode → Prop :=
  | chain_stop n :
      Graph.containsNode g n && isObtuse (Graph.getData g n) = false →
      chain g n 0 n
  | chain_jump n m k t :
      Graph.containsNode g n && isObtuse (Graph.getData g n) = true →
      getOpposite g n = Ok m →
      chain g m k t →
      chain g n (S k) t.

(** The seed state [initialize] leaves when its chain stops at [t]. *)
Definition seed (g : Graph.t) (t : GNode) : Cavity :=
  let e := Graph.getData g t in
  mkCavity (getCenter e) t [t] [t] (PostGraph.mk [] []) [] e (Element_dim e).

(** The boundary entry [expand(node, next)] builds. *)
Definition boundaryEdge (g : Graph.t) (node next : GNode) : EdgeTuple :=
  mkEdgeTuple _ node next
    (getRelatedEdge (Graph.getData g next) (Graph.getData g node)).

(** [push c next]: [pre.addNode(next); frontier.push_back(next)]. *)
Definition push (c : Cavity) (next : GNode) : Cavity :=
  let c := set_pre (PreGraph.addNode (pre c) next) c in
  set_frontier (next :: frontier c) c.

(** No entry of the list equals ([operator==]) a later one. *)
Definition distinctEntries (l : list EdgeTuple) : Prop :=
  ∀ i j a b, i < j → l !! i = Some a → l !! j = Some b →
             EdgeTuple_eqb a b = false.

(** The state changes [build] and [expand] perform, one constructor per
    assignment to the cavity: popping the frontier, re-anchoring, taking in
    a member, recording a boundary edge. [E node next] constrains the pairs
    [expand] is called on. *)
Inductive step (g : Graph.t) (E : GNode → GNode → Prop)
    : Cavity → Cavity → Prop :=
  | step_pop c curr rest :
      frontier c = curr :: rest →
      step g E c (set_frontier rest c)
  | step_anchor c node next fuel c' :
      E node next →
      isMember c next (Graph.getData g next) = true →
      Element_dim (Graph.getData g next) = 2%Z →
      dim c ≠ 2%Z →
      initialize fuel g c next = Ok c' →
      step g E c c'
  | step_add c node next :
      E node next →
      isMember c next (Graph.getData g next) = true →
      ¬ (Element_dim (Graph.getData g next) = 2%Z ∧ dim c ≠ 2%Z) →
      next ∉ pre c →
      step g E c (push c next)
  | step_record c node next :
      E node next →
      isMember c next (Graph.getData g next) = false →
      found (connections c) (boundaryEdge g node next) = false →
      step g E c
        (set_connections (connections c ++ [boundaryEdge g node next]) c).

(** The diagnostic of a failed [getOpposite] tells the offending node:
    some decoding of the message recovers it, for every node that passes
    the [assert] on its three edges. *)
Definition diagnosticIdentifiesNode (g : Graph.t) : Prop :=
  ∃ decode : string → GNode,
    ∀ n msg, length (Graph.edges g n) = 3 →
             getOpposite g n = Die msg → decode msg = n.

(** [deadEnd g node k]: the obtuse-opposite jumps from [node] reach, after
    [k] jumps, a contained obtuse element none of whose neighbours lies
    across its obtuse point. *)
Inductive deadEnd (g : Graph.t) : GNode → nat → Prop :=
  | deadEnd_here n :
      Graph.containsNode g n && isObtuse (Graph.getData g n) = true →
      Forall (λ m, avoidsObtuse g (Graph.getData g n) m = false)
             (Graph.edges g n) →
      deadEnd g n 0
  | deadEnd_jump n m k :
      Graph.containsNode g n && isObtuse (Graph.getData g n) = true →
      getOpposite g n = Ok m →
      deadEnd g m k →
      deadEnd g n (S k).

(** [pre] lists members of the graph without repetition and [post] is
    still empty. *)
Definition grown (g : Graph.t) (c : Cavity) : Prop :=
  NoDup (pre c) ∧ (∀ n, n ∈ pre c → n ∈ Graph.nodes g) ∧
  post c = PostGraph.mk [] [].

(** The number of nodes [computePost] creates for its anchor. *)
Definition anchorNodes (c : Cavity) : nat :=
  if bool_decide (Element_dim (centerElement c) = 2%Z) then 2 else 0.

(** [next] is visited from [node] by the loop of [build]. *)
Definition isEdge (g : Graph.t) (node next : GNode) : Prop :=
  next ∈ Graph.edges g node.

(** Number of allocated identifiers that are not in [pre]. *)
Definition outside (g : Graph.t) (c : Cavity) : nat :=
  length (filter (λ n, n ∉ pre c) (seq 0 (Graph.nextId g))).

(** What is left to do for [build]: the nodes waiting on the frontier plus
    the nodes that can still enter [pre]. *)
Definition pending (g : Graph.t) (c : Cavity) : nat :=
  length (frontier c) + outside g c.
End cavity.

(** ** Further notions on the cavity *)
Section cavity_shape.
Context `{Geometry}.

(** The anchor fields of the cavity agree with each other and with the
    graph: [centerElement] is the payload of [centerNode], [center] its
    circumcenter, [dim] its [dim()], and [centerNode] is in [pre]. *)
Definition anchored (g : Graph.t) (c : Cavity) : Prop :=
  centerElement c = Graph.getData g (centerNode c) ∧
  center c = getCenter (centerElement c) ∧
  dim c = Element_dim (centerElement c) ∧
  centerNode c ∈ pre c.

(** An entry equal to [e], by identity or by [operator==], is in [l]. *)
Definition recorded (l : list EdgeTuple) (e : EdgeTuple) : Prop :=
  e ∈ l ∨ found l e = true.

(** The neighbour [m] of the cavity node [n] has been dealt with: it is in
    [pre] if [expand] takes it for a member of the cavity, and the boundary
    entry for the pair is recorded if not. *)
Definition handled (g : Graph.t) (c : Cavity) (n m : GNode) : Prop :=
  if isMember c m (Graph.getData g m) then m ∈ pre c
  else recorded (connections c) (boundaryEdge g n m).

(** All neighbours of [n] have been dealt with. *)
Definition closedAt (g : Graph.t) (c : Cavity) (n : GNode) : Prop :=
  ∀ m, m ∈ Graph.edges g n → handled g c n m.

(** Every node of [pre] waits on the frontier or is closed. *)
Definition settled (g : Graph.t) (c : Cavity) : Prop :=
  ∀ n, n ∈ pre c → n ∈ frontier c ∨ closedAt g c n.

(** The same while the loop of [build] is at [curr], with the neighbours
    [seen] of [curr] dealt with. *)
Definition settledBut (g : Graph.t) (curr : GNode) (seen : list GNode)
    (c : Cavity) : Prop :=
  ∀ n, n ∈ pre c →
       n ∈ frontier c ∨ closedAt g c n ∨
       (n = curr ∧ ∀ m, m ∈ seen → handled g c curr m).

(** The node [computePost] calls [other] for a boundary entry. *)
Definition otherEnd (c : Cavity) (tuple : EdgeTuple) : GNode :=
  if PreGraph.containsNode (pre c) (dst tuple) then src tuple else dst tuple.

(** [g'] is [g] with further nodes allocated by [createNode]: the same
    members, and the same element and edges at every identifier handed out
    before. *)
Definition allocatesOnly (g g' : Graph.t) : Prop :=
  Graph.nodes g' = Graph.nodes g ∧
  Graph.nextId g ≤ Graph.nextId g' ∧
  ∀ n, n < Graph.nextId g →
       Graph.getData g' n = Graph.getData g n ∧
       Graph.edges g' n = Graph.edges g n.

(** [c'] differs from [c] in [post] at most. *)
Definition keepsAllButPost (c c' : Cavity) : Prop :=
  center c' = center c ∧ centerNode c' = centerNode c ∧
  frontier c' = frontier c ∧ pre c' = pre c ∧
  connections c' = connections c ∧ centerElement c' = centerElement c ∧
  dim c' = dim c.

(** Every node of [post] is allocated in [g], and every edge recorded in
    [post] starts at a node of [post] with identifier at least [lo] and ends
    either at a node that was in [post] before its start was created, or at
    the node [computePost] calls [other] for an entry of [connections c0]. *)
Definition postEdgesLinked (c0 : Cavity) (lo : nat) (g : Graph.t)
    (c : Cavity) : Prop :=
  (∀ n, n ∈ PostGraph.nodes (post c) → n < Graph.nextId g) ∧
  ∀ e, e ∈ PostGraph.edges (post c) →
       src e ∈ PostGraph.nodes (post c) ∧ lo ≤ src e ∧
       ((dst e ∈ PostGraph.nodes (post c) ∧ dst e < src e) ∨
        ∃ t, t ∈ connections c0 ∧ dst e = otherEnd c0 t).

End cavity_shape.

(** ** Benchmark start-up (dist_apps/src/DistBenchStart.cpp)

    The command line report of [DistBenchStart] and the heterogeneous set-up
    [internal::heteroSetup]. Machine integers are kept as [Z] with the
    conversions written out; [int] and [unsigned] are 32 bits wide. *)
Module DistBench.

Inductive Personality : Type := CPU | GPU_CUDA | GPU_OPENCL.

#[export] Instance Personality_eq_dec : EqDecision Personality.
Proof. solve_decision. Defined.

Definition personality_str (p : Personality) : string :=
  match p with
  | CPU => "CPU"
  | GPU_CUDA => "GPU_CUDA"
  | GPU_OPENCL => "GPU_OPENCL"
  end.

(** The loop of [DistBenchStart] that assembles [cmdout] from [argv]:
    every argument, followed by a blank unless it is the last one. Reading
    [argv[i]] past the array is not modelled: [argv] holds [argc] entries. *)
Definition cmdout_step (argc : Z) (argv : list string) (cmdout : string)
    (i : nat) : string :=
  let cmdout := (cmdout ++ nth i argv "")%string in
  if bool_decide (Z.of_nat i ≠ argc - 1)%Z then (cmdout ++ " ")%string
  else cmdout.

Definition commandLine (argc : Z) (argv : list string) : string :=
  foldl (cmdout_step argc argv) ""%string (seq 0 (Z.to_nat argc)).

(** Conversion of a value to [unsigned] and to [int]. *)
Definition to_unsigned (z : Z) : Z := (z mod 2 ^ 32)%Z.
Definition to_int (z : Z) : Z := ((z + 2 ^ 31) mod 2 ^ 32 - 2 ^ 31)%Z.

(** [s.c_str()[k]] for an unsigned [k]: a character of the string, the
    terminating zero at [k = s.length()], and no defined value beyond. *)
Definition c_str_at (s : string) (k : Z) : option ascii :=
  if (k <? Z.of_nat (String.length s))%Z then String.get (Z.to_nat k) s
  else if (k =? Z.of_nat (String.length s))%Z then Some Ascii.zero
  else None.

(** The command line options [heteroSetup] writes, and the vector it is
    handed. *)
Record Setup := mkSetup {
  num_nodes : Z;
  personality : Personality;
  gpudevice : Z;
  scaleFactor : list Z;
}.

(** What [heteroSetup] only reads: the host id, [net.Num], and the options
    [pset], [scalecpu] and [scalegpu]. *)
Record Host := mkHost {
  my_host_id : Z;
  Num : Z;
  personality_set : string;
  scalecpu : Z;
  scalegpu : Z;
}.

(** The [switch] on the host's character of [pset]. The [assert(0)] of the
    ['o'] case is compiled out of release builds and is not modelled. *)
Definition personalityOf (ch : ascii) : Personality :=
  if bool_decide (ch = "g"%char) then GPU_CUDA
  else if bool_decide (ch = "o"%char) then GPU_OPENCL
  else CPU.

(** The scale factor loop, [i] running over [ids]; [nn] is [num_nodes] as
    the unsigned operand of [i % num_nodes]. *)
Fixpoint scale_loop (h : Host) (nn : Z) (ids : list nat) (sf : list Z)
    : option (list Z) :=
  match ids with
  | [] => Some sf
  | i :: ids' =>
      ch ← c_str_at (personality_set h) (Z.of_nat i mod nn)%Z;
      scale_loop h nn ids'
        (sf ++ [if bool_decide (ch = "c"%char) then scalecpu h else scalegpu h])
  end.

(** [internal::heteroSetup(scaleFactor)]. [None] stands for undefined
    behaviour: a division by zero or a read past the end of [pset].
    [get_gpu_device_id] is declared elsewhere and taken as a parameter.
    The [assert((net.Num % num_nodes) == 0)] is compiled out of release
    builds and is not modelled; its operand already divides by
    [num_nodes], so a zero [num_nodes] is undefined with or without it. *)
Definition heteroSetup (get_gpu_device_id : string → Z → Z) (h : Host)
    (st : Setup) : option Setup :=
  let num_nodes := if (num_nodes st =? -1)%Z then to_int (Num h)
                   else num_nodes st in
  let nn := to_unsigned num_nodes in
  if (nn =? 0)%Z then None
  else
    let perNode := (Num h / nn)%Z in
    if (Z.of_nat (String.length (personality_set h)) =? perNode)%Z then
      if (perNode =? 0)%Z then None
      else
        ch ← c_str_at (personality_set h) (my_host_id h mod perNode)%Z;
        let personality := personalityOf ch in
        let gpudevice :=
          if bool_decide (personality = GPU_CUDA) && (gpudevice st =? -1)%Z
          then get_gpu_device_id (personality_set h) num_nodes
          else gpudevice st in
        if (1 <? scalecpu h)%Z || (1 <? scalegpu h)%Z then
          sf ← scale_loop h nn (seq 0 (Z.to_nat (Num h))) (scaleFactor st);
          Some (mkSetup num_nodes personality gpudevice sf)
        else Some (mkSetup num_nodes personality gpudevice (scaleFactor st))
    else Some (mkSetup num_nodes (personality st) (gpudevice st)
                       (scaleFactor st)).

(** [num_nodes] after the defaulting at the head of [heteroSetup]. *)
Definition defaulted (h : Host) (st : Setup) : Z :=
  if (num_nodes st =? -1)%Z then to_int (Num h) else num_nodes st.

(** A run on four hosts spread over two physical nodes: host 1 is the second
    host of its node, the nodes hold a CPU host and a GPU host each, and the
    GPU hosts get twice the work. *)
Definition host1of4 : Host := mkHost 1 4 "cg" 1 2.
Definition twoNodes : Setup := mkSetup 2 CPU (-1) [].
Definition firstDevice (pset : string) (nodes : Z) : Z := 0%Z.

(** A single-character [pset] on two hosts with [num_nodes] left at its
    default. *)
Definition host0of2 : Host := mkHost 0 2 "c" 2 3.
Definition defaultNodes : Setup := mkSetup (-1) CPU (-1) [].

(** The host and the options fit their machine types. *)
Definition inRange (h : Host) (st : Setup) : Prop :=
  (0 ≤ my_host_id h < 2 ^ 32 ∧ 0 ≤ Num h < 2 ^ 32 ∧
   0 ≤ scalecpu h < 2 ^ 32 ∧ 0 ≤ scalegpu h < 2 ^ 32 ∧
   - 2 ^ 31 ≤ num_nodes st < 2 ^ 31 ∧ - 2 ^ 31 ≤ gpudevice st < 2 ^ 31)%Z.

(** The scale factors are switched on. *)
Definition scaling (h : Host) : bool :=
  (1 <? scalecpu h)%Z || (1 <? scalegpu h)%Z.
End DistBench.

(** ** A lattice instance

    An instance of the geometry over integer points, used to run the
    operations on concrete meshes. The cached attributes of an element
    (circumcenter, squared radius, obtuse corner, badness) are stored with its
    points; the shared edge of two elements is the list of points they have
    in common. *)
Module Lattice.
Abbreviation point := (Z * Z)%type (only parsing).

Record element := mkElement {
  points : list point;
  circumcenter : point;
  radius2 : Z;
  obtuse : option point;
  bad : bool;
}.

Definition dist2 (p q : point) : Z :=
  ((p.1 - q.1) * (p.1 - q.1) + (p.2 - q.2) * (p.2 - q.2))%Z.

Definition shared (a b : element) : list point :=
  filter (λ p, p ∈ points b) (points a).

#[export] Instance geometry : Geometry := {|
  Tuple := point;
  Edge := list point;
  Element := element;
  Tuple_eqb := λ a b, bool_decide (a = b);
  Edge_eqb := λ a b, bool_decide (a = b);
  Edge_getPoint := λ e i, nth i e (0, 0)%Z;
  getPoint := λ e i, nth i (points e) (0, 0)%Z;
  getObtuse := λ e, default (0, 0)%Z (obtuse e);
  isObtuse := λ e, bool_decide (is_Some (obtuse e));
  isBad := bad;
  getCenter := circumcenter;
  Element_dim := λ e, Z.of_nat (length (points e));
  inCircle := λ e p, bool_decide (dist2 (circumcenter e) p < radius2 e)%Z;
  isRelated := λ a b, bool_decide (2 ≤ length (shared a b));
  getRelatedEdge := shared;
  Element2 := λ a b, mkElement [a; b] a (dist2 a b) None false;
  Element3 := λ a b c,
    mkElement [a; b; c] a (dist2 a b) None (bool_decide (20 < dist2 b c)%Z);
|}.

(** A mesh of two triangles and four boundary segments over the points
    A = (0,0), B = (8,0), C = (4,2), D = (4,-8): node 0 is the triangle ABC,
    obtuse at C and bad; node 1 is the triangle ABD across the edge AB;
    nodes 2, 3, 4, 5 are the segments AC, BC, AD, BD. *)
Definition A : point := (0, 0)%Z.
Definition B : point := (8, 0)%Z.
Definition C : point := (4, 2)%Z.
Definition D : point := (4, -8)%Z.

Definition segment (p q m : point) : element :=
  mkElement [p; q] m (dist2 m p) None false.

Definition meshData (n : GNode) : element :=
  match n with
  | 0 => mkElement [A; B; C] (4, -3)%Z 25 (Some C) true
  | 1 => mkElement [A; B; D] (4, -3)%Z 25 None false
  | 2 => segment A C (2, 1)%Z
  | 3 => segment B C (6, 1)%Z
  | 4 => segment A D (2, -4)%Z
  | _ => segment B D (6, -4)%Z
  end.

Definition meshAdj (n : GNode) : list GNode :=
  match n with
  | 0 => [2; 3; 1]
  | 1 => [0; 4; 5]
  | 2 => [0]
  | 3 => [0]
  | 4 => [1]
  | 5 => [1]
  | _ => []
  end.

Definition mesh : Graph.t :=
  Graph.mk meshData 6 (list_to_set [0; 1; 2; 3; 4; 5]) meshAdj.

(** A malformed mesh: the edge AB is cut, both triangles are obtuse at their
    apex, and the edges AC and AD are shared by a further triangle each
    (node 6 is ACE, node 7 is ADF). Nodes 0 and 1 have three neighbours, none
    of them across the obtuse corner. Node 6 is obtuse at E and lies across
    AC from node 0; nodes 8 and 9 are the segments AE and CE. *)
Definition E : point := (0, 4)%Z.
Definition F : point := (0, -8)%Z.

Definition tornData (n : GNode) : element :=
  match n with
  | 1 => mkElement [A; B; D] (4, -3)%Z 25 (Some D) true
  | 6 => mkElement [A; C; E] (1, 2)%Z 5 (Some E) true
  | 7 => mkElement [A; D; F] (-6, -4)%Z 52 None false
  | 8 => segment A E (0, 2)%Z
  | 9 => segment C E (2, 3)%Z
  | _ => meshData n
  end.

Definition tornAdj (n : GNode) : list GNode :=
  match n with
  | 0 => [2; 3; 6]
  | 1 => [4; 5; 7]
  | 6 => [8; 9; 0]
  | 7 => [1]
  | 8 => [6]
  | 9 => [6]
  | _ => meshAdj n
  end.

Definition tornMesh : Graph.t :=
  Graph.mk tornData 10 (list_to_set [0; 1; 2; 3; 4; 5; 6; 7; 8; 9]) tornAdj.

(** A cavity object before its first [initialize]. *)
Definition blank : Cavity :=
  mkCavity (0, 0)%Z 0 [] [] (PostGraph.mk [] []) [] (meshData 0) 0.

(** The cavity of the bad triangle 0 after [initialize(0); build()]: the
    chain stops at triangle 1, whose circumcenter encroaches on segment 4;
    the cavity is re-anchored there and takes in both triangles. *)
Definition builtCavity : Cavity :=
  mkCavity (2, -4)%Z 4 [] [4; 1; 0] (PostGraph.mk [] [])
           [mkEdgeTuple _ 1 5 [B; D]; mkEdgeTuple _ 0 2 [A; C];
            mkEdgeTuple _ 0 3 [B; C]]
           (meshData 4) 2.

(** The graph and the cavity after [computePost()]. *)
Definition grownMesh : Graph.t * Cavity := computePost mesh builtCavity.
End Lattice.

(** * Properties *)

(** ** The outcome monad *)
Section outcome_lemmas.
Context {A B : Type}.

Lemma bind_Ok_inv (m : outcome A) (f : A → outcome B) (b : B) :
  m ≫= f = Ok b → ∃ a, m = Ok a ∧ f a = Ok b.
Proof. destruct m as [a| |]; [eauto | discriminate..]. Qed.

Lemma bind_Ok (m : outcome A) (f : A → outcome B) (a : A) :
  m = Ok a → m ≫= f = f a.
Proof. by intros ->. Qed.

Lemma bind_Die (f : A → outcome B) (msg : string) : Die msg ≫= f = Die msg.
Proof. done. Qed.

Lemma bind_ret (f : A → outcome B) (a : A) : Ok a ≫= f = f a.
Proof. done. Qed.
End outcome_lemmas.

(** Continue after a statement that returned normally. *)
Ltac returned := rewrite bind_ret; cbv beta.

Section initialize_properties.
Context `{Geometry}.
Implicit Types (g : Graph.t) (c : Cavity) (n node next : GNode).

(** *** getOpposite *)

Lemma getOpposite_loop_Ok g element ii m :
  getOpposite_loop g element ii = Ok m →
  m ∈ ii ∧ avoidsObtuse g element m = true.
Proof.
  induction ii as [|x ii IH]; simpl; [done|].
  destruct (avoidsObtuse g element x) eqn:Hx.
  - intros [= <-]. split; [left | done].
  - intros [Hin Hm]%IH. split; [by right | done].
Qed.

Lemma getOpposite_loop_Die g element ii :
  (∀ m, m ∈ ii → avoidsObtuse g element m = false) →
  getOpposite_loop g element ii = Die "unreachable".
Proof.
  induction ii as [|x ii IH]; simpl; intros Hall; [done|].
  rewrite Hall by left. apply IH. intros m Hm. apply Hall. by right.
Qed.

Lemma getOpposite_loop_first g element ii m :
  getOpposite_loop g element ii = Ok m →
  ∃ l1 l2, ii = l1 ++ m :: l2 ∧
           Forall (λ x, avoidsObtuse g element x = false) l1 ∧
           avoidsObtuse g element m = true.
Proof.
  induction ii as [|x ii IH]; simpl; [done|].
  destruct (avoidsObtuse g element x) eqn:Hx.
  - intros [= <-]. by exists [], ii.
  - intros (l1 & l2 & -> & Hl1 & Hm)%IH. exists (x :: l1), l2.
    split; [done|]. split; [by constructor | done].
Qed.

Lemma getOpposite_loop_split g element l1 m l2 :
  Forall (λ x, avoidsObtuse g element x = false) l1 →
  avoidsObtuse g element m = true →
  getOpposite_loop g element (l1 ++ m :: l2) = Ok m.
Proof.
  intros Hl1 Hm. induction Hl1 as [|x l1 Hx _ IH]; simpl.
  - by rewrite Hm.
  - by rewrite Hx.
Qed.

Lemma getOpposite_loop_Die_inv g element ii msg :
  getOpposite_loop g element ii = Die msg →
  msg = "unreachable"%string ∧
  Forall (λ x, avoidsObtuse g element x = false) ii.
Proof.
  induction ii as [|x ii IH]; simpl.
  - intros [= <-]. split; [done | constructor].
  - destruct (avoidsObtuse g element x) eqn:Hx; [done|].
    intros [-> Hall]%IH. split; [done | by constructor].
Qed.

Lemma getOpposite_loop_fuel g element ii :
  getOpposite_loop g element ii ≠ OutOfFuel.
Proof.
  induction ii as [|x ii IH]; simpl; [done|]. by destruct (avoidsObtuse _ _ _).
Qed.

Lemma getOpposite_isEdge g n m : getOpposite g n = Ok m → isEdge g n m.
Proof. intros Hm. by apply getOpposite_loop_Ok in Hm as [? _]. Qed.

(** *** initialize *)

(** [initialize] overwrites every field: its result is the seed state of
    the node its loop stops at. *)
Lemma initialize_unfold fuel g c node :
  initialize fuel g c node =
  '(t, e) ← initialize_loop fuel g node (Graph.getData g node);
  Ok (mkCavity (getCenter e) t [t] [t] (PostGraph.mk [] []) [] e
               (Element_dim e)).
Proof.
  unfold initialize; simpl.
  by destruct (initialize_loop _ _ _ _) as [[t e]| |].
Qed.

Lemma initialize_loop_element fuel g n t e :
  initialize_loop fuel g n (Graph.getData g n) = Ok (t, e) →
  e = Graph.getData g t.
Proof.
  revert n. induction fuel as [|fuel IH]; intros n; simpl.
  - destruct (_ && _); [discriminate | by intros [= <- <-]].
  - destruct (_ && _); [| by intros [= <- <-]].
    intros (m & _ & Hm)%bind_Ok_inv. by apply IH in Hm.
Qed.

Lemma initialize_seed fuel g c node c' :
  initialize fuel g c node = Ok c' → ∃ t, c' = seed g t.
Proof.
  rewrite initialize_unfold. intros ([t e] & Hloop & [= <-])%bind_Ok_inv.
  exists t. by rewrite (initialize_loop_element _ _ _ _ _ Hloop).
Qed.

Lemma initialize_loop_chain g node k t :
  chain g node k t →
  ∀ fuel, k ≤ fuel →
  initialize_loop fuel g node (Graph.getData g node)
  = Ok (t, Graph.getData g t).
Proof.
  induction 1 as [n Hstop | n m k t Hgo Hopp _ IH]; intros fuel Hfuel.
  - destruct fuel; simpl; by rewrite Hstop.
  - destruct fuel as [|fuel]; [lia|]. simpl. rewrite Hgo, Hopp. simpl.
    apply IH. lia.
Qed.

Lemma initialize_independent fuel g c1 c2 node :
  initialize fuel g c1 node = initialize fuel g c2 node.
Proof. by rewrite !initialize_unfold. Qed.

(** C3: when the chain of obtuse-opposite jumps from [node] stops at [t]
    (an element that is not obtuse, or a node the graph no longer
    contains), [initialize(node)] returns, whatever the cavity held before,
    with [center] the circumcenter of [t]'s element, [dim] its [dim()],
    [pre] holding exactly [t], [frontier] the one-element stack [t], and
    [post] and [connections] empty. *)
Theorem initialize_terminal g node k t :
  chain g node k t →
  ∀ fuel c, k ≤ fuel →
  ∃ c', initialize fuel g c node = Ok c' ∧
        center c' = getCenter (Graph.getData g t) ∧
        dim c' = Element_dim (Graph.getData g t) ∧
        centerNode c' = t ∧
        centerElement c' = Graph.getData g t ∧
        pre c' = [t] ∧
        frontier c' = [t] ∧
        PostGraph.nodes (post c') = [] ∧
        PostGraph.edges (post c') = [] ∧
        connections c' = [].
Proof.
  intros Hchain fuel c Hfuel. exists (seed g t). split; [|done].
  rewrite initialize_unfold.
  by rewrite (initialize_loop_chain _ _ _ _ Hchain fuel Hfuel).
Qed.

(** C8: on the same graph, a second [initialize(node)] on the cavity left
    by a first one returns the very same cavity state: same [center], same
    [dim], same seed [frontier] and [pre] (and every other field). *)
Theorem initialize_idempotent fuel g c node c1 :
  initialize fuel g c node = Ok c1 →
  initialize fuel g c1 node = Ok c1.
Proof. intros <-. apply initialize_independent. Qed.

End initialize_properties.

Section expand_properties.
Context `{Geometry}.
Implicit Types (g : Graph.t) (c : Cavity) (n node next : GNode).

(** *** expand *)

Lemma isMember_true c next e :
  isMember c next e = true ↔
  inCircle e (center c) = true ∧
  ¬ (dim c = 2%Z ∧ Element_dim e = 2%Z ∧ next ≠ centerNode c).
Proof.
  unfold isMember.
  rewrite andb_true_iff, negb_true_iff.
  destruct (decide (dim c = 2%Z)) as [Hd|Hd];
    destruct (decide (Element_dim e = 2%Z)) as [He|He];
    destruct (decide (next ≠ centerNode c)) as [Hn|Hn];
    rewrite ?(bool_decide_eq_true_2 _ Hd), ?(bool_decide_eq_false_2 _ Hd),
      ?(bool_decide_eq_true_2 _ He), ?(bool_decide_eq_false_2 _ He),
      ?(bool_decide_eq_true_2 _ Hn), ?(bool_decide_eq_false_2 _ Hn);
    simpl; intuition congruence.
Qed.

Lemma expand_anchor fuel g c node next :
  isMember c next (Graph.getData g next) = true →
  Element_dim (Graph.getData g next) = 2%Z →
  dim c ≠ 2%Z →
  expand fuel g c node next
  = (c' ← initialize fuel g c next; build fuel g c').
Proof.
  intros Hmem Hseg Hdim. unfold expand, expand_with. rewrite Hmem.
  by rewrite !bool_decide_eq_true_2.
Qed.

Lemma expand_with_member bld fuel g c node next :
  isMember c next (Graph.getData g next) = true →
  ¬ (Element_dim (Graph.getData g next) = 2%Z ∧ dim c ≠ 2%Z) →
  expand_with bld fuel g c node next
  = Ok (if bool_decide (next ∈ pre c) then c else push c next).
Proof.
  intros Hmem Hno. unfold expand_with. rewrite Hmem.
  destruct (bool_decide (Element_dim _ = 2%Z) && bool_decide (dim c ≠ 2%Z))
    eqn:Hre.
  { apply andb_true_iff in Hre as [?%bool_decide_eq_true ?%bool_decide_eq_true].
    tauto. }
  unfold PreGraph.containsNode. by destruct (bool_decide (next ∈ pre c)).
Qed.

Lemma expand_with_boundary bld fuel g c node next :
  isMember c next (Graph.getData g next) = false →
  expand_with bld fuel g c node next
  = Ok (if found (connections c) (boundaryEdge g node next) then c
        else set_connections (connections c ++ [boundaryEdge g node next]) c).
Proof.
  intros Hmem. unfold expand_with. rewrite Hmem. unfold boundaryEdge.
  by destruct (found _ _).
Qed.

(** C2: [expand(node, next)] treats [next] as a member of the cavity iff
    its element lies in the circle around [center] and it is not a second
    encroaching segment (cavity [dim == 2], [next]'s [dim() == 2],
    [next != centerNode]). A member that is a segment while the cavity is
    anchored on a non-segment re-anchors the cavity: [initialize(next)]
    followed by [build()]. Any other member is added to [pre] and pushed on
    [frontier] only if [pre] does not contain it yet. A non-member leaves
    [pre] and [frontier] as they are. *)
Theorem expand_classifies fuel g c node next :
  let nextElement := Graph.getData g next in
  let member :=
    inCircle nextElement (center c) = true ∧
    ¬ (dim c = 2%Z ∧ Element_dim nextElement = 2%Z ∧ next ≠ centerNode c) in
  (member → Element_dim nextElement = 2%Z → dim c ≠ 2%Z →
   expand fuel g c node next
   = (c' ← initialize fuel g c next; build fuel g c')) ∧
  (member → ¬ (Element_dim nextElement = 2%Z ∧ dim c ≠ 2%Z) →
   expand fuel g c node next
   = Ok (if bool_decide (next ∈ pre c) then c
         else set_frontier (next :: frontier c)
                (set_pre (pre c ++ [next]) c))) ∧
  (¬ member →
   ∃ c', expand fuel g c node next = Ok c' ∧
         pre c' = pre c ∧ frontier c' = frontier c).
Proof.
  intros nextElement member. split; [|split].
  - intros Hmem%isMember_true ? ?. by apply expand_anchor.
  - intros Hmem%isMember_true ?. by apply expand_with_member.
  - intros Hmem. unfold expand.
    rewrite expand_with_boundary.
    + destruct (found _ _); eauto.
    + destruct (isMember c next (Graph.getData g next)) eqn:Hm; [|done].
      by apply isMember_true in Hm.
Qed.

(** *** The steps of build *)

Lemma expand_with_steps E bld fuel g c node next c' :
  (∀ c1 c2, bld c1 = Ok c2 → rtc (step g E) c1 c2) →
  E node next →
  expand_with bld fuel g c node next = Ok c' →
  rtc (step g E) c c'.
Proof.
  intros Hbld HE.
  destruct (isMember c next (Graph.getData g next)) eqn:Hmem.
  - destruct (decide (Element_dim (Graph.getData g next) = 2%Z ∧ dim c ≠ 2%Z))
      as [[Hseg Hdim]|Hno].
    + unfold expand_with. rewrite Hmem, !bool_decide_eq_true_2 by done.
      simpl. intros (c1 & Hinit & Hb)%bind_Ok_inv.
      eapply rtc_l; [by eapply step_anchor | by apply Hbld].
    + rewrite expand_with_member by done. intros [= <-].
      case_bool_decide; [done|]. apply rtc_once. by eapply step_add.
  - rewrite expand_with_boundary by done. intros [= <-].
    destruct (found _ _) eqn:Hf; [done|]. apply rtc_once.
    by eapply step_record.
Qed.

Lemma for_each_steps E bld fuel g node xs c c' :
  (∀ c1 c2, bld c1 = Ok c2 → rtc (step g E) c1 c2) →
  (∀ x, x ∈ xs → E node x) →
  for_each (λ c x, expand_with bld fuel g c node x) xs c = Ok c' →
  rtc (step g E) c c'.
Proof.
  intros Hbld. revert c. induction xs as [|x xs IH]; intros c HE; simpl.
  - by intros [= <-].
  - intros (c1 & Hx & Hrest)%bind_Ok_inv. etrans.
    + eapply expand_with_steps; [done| |done]. apply HE. left.
    + apply IH; [|done]. intros y Hy. apply HE. by right.
Qed.

Lemma build_steps E g :
  (∀ node next, isEdge g node next → E node next) →
  ∀ fuel c c', build fuel g c = Ok c' → rtc (step g E) c c'.
Proof.
  intros HE. induction fuel as [|fuel IH]; intros c c'; simpl.
  - destruct (frontier c); [by intros [= <-] | discriminate].
  - destruct (frontier c) as [|curr rest] eqn:Hfr; [by intros [= <-]|].
    intros (c1 & Hfor & Hb)%bind_Ok_inv.
    eapply rtc_l; [by eapply step_pop|]. etrans; [|by apply IH].
    eapply for_each_steps; [apply IH| |done]. intros x Hx. by apply HE.
Qed.

Lemma expand_steps E fuel g c node next c' :
  E node next →
  (∀ a b, isEdge g a b → E a b) →
  expand fuel g c node next = Ok c' →
  rtc (step g E) c c'.
Proof.
  intros HE Hedge. apply expand_with_steps; [|done].
  by apply build_steps.
Qed.

Lemma steps_invariant E g (P : Cavity → Prop) :
  (∀ c c', P c → step g E c c' → P c') →
  ∀ c c', rtc (step g E) c c' → P c → P c'.
Proof. intros Hstep c c'. induction 1; eauto. Qed.
End expand_properties.

Section fatal_failure.
Context `{Geometry}.
Implicit Types (g : Graph.t) (c : Cavity) (n node next : GNode).

Lemma for_each_app {A S : Type} (body : S → A → outcome S) (xs ys : list A)
    (s : S) :
  for_each body (xs ++ ys) s = for_each body xs s ≫= for_each body ys.
Proof.
  revert s. induction xs as [|x xs IH]; intros s; simpl; [done|].
  destruct (body s x) as [s'| |]; simpl; [apply IH | done..].
Qed.

Lemma initialize_loop_deadEnd g node k :
  deadEnd g node k →
  ∀ fuel, k < fuel →
  initialize_loop fuel g node (Graph.getData g node) = Die "unreachable".
Proof.
  induction 1 as [n Hgo Hnone | n m k Hgo Hopp _ IH]; intros fuel Hfuel;
    (destruct fuel as [|fuel]; [lia|]); simpl; rewrite Hgo.
  - rewrite Forall_forall in Hnone. unfold getOpposite.
    by rewrite getOpposite_loop_Die.
  - rewrite Hopp. simpl. apply IH. lia.
Qed.

Lemma initialize_deadEnd g node k fuel c :
  deadEnd g node k → k < fuel →
  initialize fuel g c node = Die "unreachable".
Proof.
  intros Hdead Hfuel. rewrite initialize_unfold.
  by rewrite (initialize_loop_deadEnd g node k Hdead fuel Hfuel).
Qed.

(** C7, as the code has it. [getOpposite(node)] returns a node exactly when
    it is the first neighbour, in edge order, whose shared edge avoids the
    obtuse point of [node]; so it does return whenever some neighbour
    qualifies. It aborts the run exactly when no neighbour qualifies, always
    with the fixed diagnostic "unreachable", which does not name the node.
    The abort is never recovered: [initialize] and the whole iteration abort
    when the chain of jumps from [node] reaches such an element after any
    number of jumps, [expand] aborts when it re-anchors on such a chain, and
    an abort inside [expand] aborts the enclosing [build] and iteration. *)
Theorem getOpposite_fatal g node :
  (∀ m, getOpposite g node = Ok m ↔
        ∃ l1 l2, Graph.edges g node = l1 ++ m :: l2 ∧
                 Forall (λ x, avoidsObtuse g (Graph.getData g node) x = false)
                        l1 ∧
                 avoidsObtuse g (Graph.getData g node) m = true) ∧
  (Exists (λ x, avoidsObtuse g (Graph.getData g node) x = true)
          (Graph.edges g node) →
   ∃ m, getOpposite g node = Ok m) ∧
  (getOpposite g node = Die "unreachable" ↔
   Forall (λ x, avoidsObtuse g (Graph.getData g node) x = false)
          (Graph.edges g node)) ∧
  (∀ msg, getOpposite g node = Die msg → msg = "unreachable"%string) ∧
  getOpposite g node ≠ OutOfFuel ∧
  (∀ k fuel c, deadEnd g node k → k < fuel →
               initialize fuel g c node = Die "unreachable" ∧
               grow fuel g c node = Die "unreachable") ∧
  (∀ k fuel c from,
     deadEnd g node k → k < fuel →
     isMember c node (Graph.getData g node) = true →
     Element_dim (Graph.getData g node) = 2%Z → dim c ≠ 2%Z →
     expand fuel g c from node = Die "unreachable") ∧
  (∀ fuel c curr rest xs next ys c1 msg,
     frontier c = curr :: rest →
     Graph.edges g curr = xs ++ next :: ys →
     for_each (λ c x, expand fuel g c curr x) xs (set_frontier rest c) = Ok c1 →
     expand fuel g c1 curr next = Die msg →
     build (S fuel) g c = Die msg) ∧
  (∀ fuel c c1 msg,
     initialize fuel g c node = Ok c1 →
     build fuel g c1 = Die msg →
     grow fuel g c node = Die msg).
Proof.
  assert (∀ m, getOpposite g node = Ok m ↔
               ∃ l1 l2, Graph.edges g node = l1 ++ m :: l2 ∧
                        Forall (λ x, avoidsObtuse g (Graph.getData g node) x
                                     = false) l1 ∧
                        avoidsObtuse g (Graph.getData g node) m = true) as Hok.
  { intros m. split; [apply getOpposite_loop_first|].
    intros (l1 & l2 & Heq & Hl1 & Hm). unfold getOpposite. rewrite Heq.
    by apply getOpposite_loop_split. }
  split; [done|]. split; [|split; [|split; [|split; [|split; [|split; [|split]]]]]].
  - intros (x & Hx & Havoid)%Exists_exists.
    destruct (getOpposite g node) as [m|msg|] eqn:Hres; [by exists m | |].
    + apply getOpposite_loop_Die_inv in Hres as [_ Hall].
      rewrite Forall_forall in Hall. rewrite (Hall x Hx) in Havoid. done.
    + by apply getOpposite_loop_fuel in Hres.
  - split.
    + by intros [_ Hall]%getOpposite_loop_Die_inv.
    + intros Hall. rewrite Forall_forall in Hall.
      by apply getOpposite_loop_Die.
  - by intros msg [-> _]%getOpposite_loop_Die_inv.
  - apply getOpposite_loop_fuel.
  - intros k fuel c Hdead Hfuel.
    pose proof (initialize_deadEnd g node k fuel c Hdead Hfuel) as Hinit.
    split; [done|]. unfold grow. by rewrite Hinit.
  - intros k fuel c from Hdead Hfuel Hmem Hseg Hdim.
    rewrite expand_anchor by done.
    by rewrite (initialize_deadEnd g node k fuel c Hdead Hfuel).
  - intros fuel c curr rest xs next ys c1 msg Hfr Hedges Hxs Hdie.
    simpl. rewrite Hfr, Hedges.
    change (λ c0 neighbor,
              expand_with (build fuel g) fuel g c0 curr neighbor)
      with (λ c0 x, expand fuel g c0 curr x).
    rewrite for_each_app, Hxs. simpl. by rewrite Hdie.
  - intros fuel c c1 msg Hinit Hbuild. unfold grow.
    rewrite Hinit. simpl. by rewrite Hbuild.
Qed.
End fatal_failure.

Section cavity_invariants.
Context `{Geometry}.
Implicit Types (g : Graph.t) (c : Cavity) (n node next : GNode).

(** *** Segments in pre *)

Lemma anchor_segment_step E g c c' :
  (∀ n, n ∈ pre c → Element_dim (Graph.getData g n) = 2%Z → n = centerNode c) →
  step g E c c' →
  ∀ n, n ∈ pre c' → Element_dim (Graph.getData g n) = 2%Z → n = centerNode c'.
Proof.
  intros HP Hstep. destruct Hstep as
    [c curr rest _ | c node next fuel c' _ _ _ _ Hinit
    | c node next _ Hmem Hno _ | c node next _ _ _]; simpl; try done.
  - apply initialize_seed in Hinit as [t ->]. simpl.
    by intros n ->%list_elem_of_singleton _.
  - unfold PreGraph.addNode.
    intros n [Hn | ->%list_elem_of_singleton]%elem_of_app Hseg; [by apply HP|].
    apply isMember_true in Hmem as [_ Hsecond].
    destruct (decide (next = centerNode c)) as [|Hne]; [done|].
    destruct (decide (dim c = 2%Z)); tauto.
Qed.

(** *** Boundary entries *)

Lemma found_false (l : list EdgeTuple) (value a : EdgeTuple) :
  found l value = false → a ∈ l → EdgeTuple_eqb a value = false.
Proof.
  unfold found. intros Hf Ha.
  destruct (EdgeTuple_eqb a value) eqn:Heq; [|done].
  rewrite <- Hf. symmetry. apply existsb_exists. exists a.
  by rewrite <- list_elem_of_In.
Qed.

Lemma distinctEntries_nil : distinctEntries ([] : list EdgeTuple).
Proof. intros i j a b _ Hi. by rewrite lookup_nil in Hi. Qed.

Lemma distinctEntries_snoc (l : list EdgeTuple) (value : EdgeTuple) :
  distinctEntries l → found l value = false → distinctEntries (l ++ [value]).
Proof.
  intros Hl Hf i j a b Hij Hi Hj.
  assert (j < length (l ++ [value])) as Hlen by by eapply lookup_lt_Some.
  rewrite length_app in Hlen; simpl in Hlen.
  rewrite lookup_app_l in Hi by lia.
  destruct (decide (j < length l)) as [Hjl|Hjl].
  - rewrite lookup_app_l in Hj by done. by apply (Hl i j a b).
  - rewrite lookup_app_r in Hj by lia.
    replace (j - length l) with 0 in Hj by lia. injection Hj as <-.
    eapply found_false; [done|]. by eapply list_elem_of_lookup_2.
Qed.

Lemma distinct_step E g c c' :
  distinctEntries (connections c) → step g E c c' →
  distinctEntries (connections c').
Proof.
  intros HP Hstep. destruct Hstep as
    [c curr rest _ | c node next fuel c' _ _ _ _ Hinit
    | c node next _ _ _ _ | c node next _ _ Hfound]; simpl; try done.
  - apply initialize_seed in Hinit as [t ->]. apply distinctEntries_nil.
  - by apply distinctEntries_snoc.
Qed.

(** C9: when [expand] classifies [next] as outside the cavity it appends
    the boundary entry (node, next, shared edge) to [connections] only if
    no equal entry is present, and leaves [connections] alone otherwise;
    [expand] keeps [connections] free of equal entries, and the
    [connections] left by [initialize] followed by [build] never holds two
    equal entries. *)
Theorem connections_deduplicated fuel g c node next :
  (isMember c next (Graph.getData g next) = false →
   expand fuel g c node next
   = Ok (if found (connections c) (boundaryEdge g node next) then c
         else set_connections
                (connections c ++ [boundaryEdge g node next]) c)) ∧
  (∀ c', distinctEntries (connections c) →
         expand fuel g c node next = Ok c' →
         distinctEntries (connections c')) ∧
  (∀ c1 c2, initialize fuel g c node = Ok c1 →
            build fuel g c1 = Ok c2 →
            distinctEntries (connections c2)).
Proof.
  split; [|split].
  - intros Hmem. by apply expand_with_boundary.
  - intros c' Hdist Hexp.
    eapply (steps_invariant (λ _ _, True) g
              (λ c, distinctEntries (connections c)));
      [apply distinct_step | | done].
    by eapply expand_steps.
  - intros c1 c2 Hinit Hbuild.
    eapply (steps_invariant (λ _ _, True) g
              (λ c, distinctEntries (connections c)));
      [apply distinct_step | by eapply build_steps |].
    apply initialize_seed in Hinit as [t ->]. apply distinctEntries_nil.
Qed.

(** *** Nodes of pre are members of the graph *)

Lemma initialize_loop_member fuel g n e t e' :
  Graph.wf g → n ∈ Graph.nodes g →
  initialize_loop fuel g n e = Ok (t, e') → t ∈ Graph.nodes g.
Proof.
  intros [_ Hadj]. revert n e.
  induction fuel as [|fuel IH]; intros n e Hn; simpl.
  - destruct (_ && _); [discriminate | by intros [= <- <-]].
  - destruct (_ && _); [| by intros [= <- <-]].
    intros (m & Hm%getOpposite_isEdge & Hloop)%bind_Ok_inv.
    eapply IH; [|done]. by eapply Hadj.
Qed.

Lemma initialize_member fuel g c node c' :
  Graph.wf g → node ∈ Graph.nodes g →
  initialize fuel g c node = Ok c' →
  ∃ t, c' = seed g t ∧ t ∈ Graph.nodes g.
Proof.
  intros Hwf Hnode Hinit. rewrite initialize_unfold in Hinit.
  apply bind_Ok_inv in Hinit as ([t e] & Hloop & [= <-]).
  exists t. split.
  - by rewrite (initialize_loop_element _ _ _ _ _ Hloop).
  - by eapply initialize_loop_member.
Qed.

Lemma grown_seed g t : t ∈ Graph.nodes g → grown g (seed g t).
Proof.
  intros Ht. split; [|split]; simpl; [|by intros n ->%list_elem_of_singleton|done].
  apply NoDup_singleton.
Qed.

Lemma grown_step g c c' :
  Graph.wf g → grown g c → step g (isEdge g) c c' → grown g c'.
Proof.
  intros Hwf (Hnd & Hin & Hpost) Hstep. destruct Hstep as
    [c curr rest _ | c node next fuel c' Hedge _ _ _ Hinit
    | c node next Hedge _ _ Hfresh | c node next _ _ _]; try done.
  - eapply initialize_member in Hinit as (t & -> & Ht); [|done|].
    + by apply grown_seed.
    + destruct Hwf as [_ Hadj]. by eapply Hadj.
  - split; [|split]; simpl; [| |done]; unfold PreGraph.addNode.
    + apply NoDup_app. split; [done|]. split; [|apply NoDup_singleton].
      by intros n Hn ->%list_elem_of_singleton.
    + intros n [Hn | ->%list_elem_of_singleton]%elem_of_app; [by apply Hin|].
      destruct Hwf as [_ Hadj]. by eapply Hadj.
Qed.

Lemma build_grown fuel g c0 node c1 c2 :
  Graph.wf g → node ∈ Graph.nodes g →
  initialize fuel g c0 node = Ok c1 →
  build fuel g c1 = Ok c2 →
  grown g c1 ∧ grown g c2.
Proof.
  intros Hwf Hnode Hinit Hbuild.
  eapply initialize_member in Hinit as (t & -> & Ht); [|done..].
  assert (grown g (seed g t)) as Hseed by by apply grown_seed.
  split; [done|].
  eapply (steps_invariant (isEdge g) g (grown g));
    [intros ???; by apply grown_step | by eapply build_steps | done].
Qed.
End cavity_invariants.

Section commit_properties.
Context `{Geometry}.
Implicit Types (g : Graph.t) (c : Cavity) (n node next : GNode).

(** *** computePost *)

Lemma crossLink_nodes g newNode newElement (p : PostGraph.t) :
  PostGraph.nodes (crossLink g newNode newElement p) = PostGraph.nodes p.
Proof.
  unfold crossLink. generalize (PostGraph.nodes p) at 1 as l.
  intros l. revert p. induction l as [|x l IH]; intros p; simpl; [done|].
  rewrite IH. by destruct (isRelated _ _).
Qed.

(** What one boundary connection contributes: one node, freshly created,
    appended to [post]; the members of the graph and the other fields of
    the cavity stay. *)
Lemma computePost_step_spec g c tuple :
  ∃ g' c', computePost_step (g, c) tuple = (g', c') ∧
    PostGraph.nodes (post c') = PostGraph.nodes (post c) ++ [Graph.nextId g] ∧
    Graph.nextId g' = S (Graph.nextId g) ∧
    Graph.nodes g' = Graph.nodes g ∧
    pre c' = pre c ∧ centerNode c' = centerNode c.
Proof.
  unfold computePost_step. simpl. eexists _, _. split; [done|].
  simpl. by rewrite crossLink_nodes.
Qed.

Lemma computePost_loop_spec l g c :
  ∃ g' c', foldl computePost_step (g, c) l = (g', c') ∧
    PostGraph.nodes (post c')
    = PostGraph.nodes (post c) ++ seq (Graph.nextId g) (length l) ∧
    Graph.nextId g' = Graph.nextId g + length l ∧
    Graph.nodes g' = Graph.nodes g ∧
    pre c' = pre c ∧ centerNode c' = centerNode c.
Proof.
  revert g c. induction l as [|tuple l IH]; intros g c; cbn [foldl length].
  - eexists _, _. split; [done|]. rewrite app_nil_r.
    repeat split; lia.
  - destruct (computePost_step_spec g c tuple)
      as (g1 & c1 & -> & Hp1 & Hn1 & Hm1 & Hpre1 & Hc1).
    destruct (IH g1 c1) as (g' & c' & -> & Hp & Hn & Hm & Hpre & Hc).
    eexists _, _. split; [done|].
    rewrite Hp, Hp1, Hn, Hn1, Hm, Hm1, Hpre, Hpre1, Hc, Hc1, <- app_assoc.
    simpl. repeat split; lia.
Qed.

Lemma computePost_segment_spec g c :
  ∃ g' c', computePost_segment g c = (g', c') ∧
    PostGraph.nodes (post c')
    = PostGraph.nodes (post c) ++ seq (Graph.nextId g) (anchorNodes c) ∧
    Graph.nextId g' = Graph.nextId g + anchorNodes c ∧
    Graph.nodes g' = Graph.nodes g ∧
    pre c' = pre c ∧ centerNode c' = centerNode c ∧
    connections c' = connections c.
Proof.
  unfold computePost_segment, anchorNodes. case_bool_decide; simpl.
  - eexists _, _. split; [done|]. simpl. rewrite <- app_assoc.
    repeat split; lia.
  - eexists _, _. split; [done|]. rewrite app_nil_r. repeat split; lia.
Qed.

Lemma computePost_prefix_spec g c i :
  ∃ g' c',
    foldl computePost_step (computePost_segment g c) (take i (connections c))
    = (g', c') ∧
    PostGraph.nodes (post c')
    = PostGraph.nodes (post c)
      ++ seq (Graph.nextId g) (anchorNodes c + length (take i (connections c))) ∧
    Graph.nextId g'
    = Graph.nextId g + (anchorNodes c + length (take i (connections c))) ∧
    Graph.nodes g' = Graph.nodes g ∧
    pre c' = pre c ∧ centerNode c' = centerNode c.
Proof.
  destruct (computePost_segment_spec g c)
    as (g1 & c1 & -> & Hp1 & Hn1 & Hm1 & Hpre1 & Hc1 & _).
  destruct (computePost_loop_spec (take i (connections c)) g1 c1)
    as (g' & c' & -> & Hp & Hn & Hm & Hpre & Hc).
  eexists _, _. split; [done|].
  rewrite Hp, Hp1, Hn, Hn1, Hm, Hm1, Hpre, Hpre1, Hc, Hc1, <- app_assoc.
  rewrite seq_app. repeat split; lia.
Qed.

Lemma computePost_spec g c :
  ∃ g' c', computePost g c = (g', c') ∧
    PostGraph.nodes (post c')
    = PostGraph.nodes (post c)
      ++ seq (Graph.nextId g) (anchorNodes c + length (connections c)) ∧
    Graph.nextId g'
    = Graph.nextId g + (anchorNodes c + length (connections c)) ∧
    Graph.nodes g' = Graph.nodes g ∧
    pre c' = pre c ∧ centerNode c' = centerNode c.
Proof.
  destruct (computePost_prefix_spec g c (length (connections c)))
    as (g' & c' & Heq & Hrest).
  rewrite firstn_all in Heq, Hrest. by exists g', c'.
Qed.

(** C4: [computePost()] appends to [post] exactly [|connections|] nodes
    when the anchor element is not a segment and exactly
    [|connections| + 2] when its [dim() == 2]; the appended nodes are
    precisely the nodes it creates (the identifiers from the graph's next
    free one on), so every synthesized element is in [post]. *)
Theorem computePost_count g c :
  let k := length (connections c)
           + (if bool_decide (Element_dim (centerElement c) = 2%Z)
              then 2 else 0) in
  PostGraph.nodes (post (computePost g c).2)
  = PostGraph.nodes (post c) ++ seq (Graph.nextId g) k ∧
  length (PostGraph.nodes (post (computePost g c).2))
  = length (PostGraph.nodes (post c)) + k ∧
  Graph.nextId (computePost g c).1 = Graph.nextId g + k.
Proof.
  intros k. destruct (computePost_spec g c) as (g' & c' & -> & Hp & Hn & _).
  simpl. unfold anchorNodes in *.
  replace k with ((if bool_decide (Element_dim (centerElement c) = 2%Z)
                   then 2 else 0) + length (connections c)) by (unfold k; lia).
  rewrite Hp, length_app, length_seq. done.
Qed.

(** *** update *)

Lemma update_remove_nodes l g :
  Graph.nodes (foldl Graph.removeNode g l) = Graph.nodes g ∖ list_to_set l.
Proof.
  revert g. induction l as [|x l IH]; intros g; simpl.
  - set_solver.
  - rewrite IH. simpl. set_solver.
Qed.

Lemma update_remove_payload l g :
  Graph.payload (foldl Graph.removeNode g l) = Graph.payload g.
Proof. revert g. induction l as [|x l IH]; intros g; simpl; [done|by rewrite IH]. Qed.

Lemma update_add_spec l g ctx :
  let r := foldl update_add_step (g, ctx) l in
  Graph.nodes r.1 = list_to_set l ∪ Graph.nodes g ∧
  Graph.payload r.1 = Graph.payload g ∧
  Graph.adj r.1 = Graph.adj g ∧
  r.2 = ctx ++ filter (λ n, isBad (Graph.getData g n)) l.
Proof.
  revert g ctx. induction l as [|x l IH]; intros g ctx; cbn [foldl].
  - simpl. rewrite app_nil_r. repeat split. set_solver.
  - cbn [update_add_step].
    destruct (IH (Graph.addNode g x)
                 (if isBad (Graph.getData (Graph.addNode g x) x)
                  then ctx ++ [x] else ctx))
      as (Hn & Hp & Ha & Hc).
    cbn zeta in *. rewrite Hn, Hp, Ha, Hc. simpl. repeat split; [set_solver|].
    unfold Graph.getData; simpl. rewrite filter_cons.
    destruct (isBad (Graph.payload g x)); simpl.
    + by rewrite <- app_assoc.
    + done.
Qed.

Lemma link_elem_of l d m : m ∈ Graph.link l d ↔ m ∈ l ∨ m = d.
Proof.
  unfold Graph.link. case_bool_decide.
  - split; [by left|]. by intros [?| ->].
  - rewrite elem_of_app, list_elem_of_singleton. done.
Qed.

Lemma addEdge_adj g s d a m :
  m ∈ Graph.adj (Graph.addEdge g s d) a ↔
  m ∈ Graph.adj g a ∨ (a = s ∧ m = d) ∨ (a = d ∧ m = s).
Proof.
  simpl. repeat case_bool_decide; rewrite ?link_elem_of; naive_solver.
Qed.

Lemma update_edges_spec (l : list EdgeTuple) g :
  let g' := foldl (λ g edge, Graph.addEdge g (src edge) (dst edge)) g l in
  Graph.nodes g' = Graph.nodes g ∧
  (∀ a m, m ∈ Graph.adj g a → m ∈ Graph.adj g' a) ∧
  (∀ e, e ∈ l → dst e ∈ Graph.adj g' (src e) ∧ src e ∈ Graph.adj g' (dst e)).
Proof.
  revert g. induction l as [|x l IH]; intros g; simpl.
  - split; [done|]. split; [done|]. by intros e ?%elem_of_nil.
  - destruct (IH (Graph.addEdge g (src x) (dst x))) as (Hn & Hmono & Hadd).
    split; [by rewrite Hn|]. split.
    + intros a m Hm. apply Hmono, addEdge_adj. by left.
    + intros e [->|He]%elem_of_cons; [|by apply Hadd].
      split; apply Hmono, addEdge_adj; naive_solver.
Qed.

(** The effect of [update] on the graph and on the context. *)
Lemma update_spec g c node ctx :
  let g1 := update_remove g c in
  let r := update g c node ctx in
  Graph.nodes g1 = Graph.nodes g ∖ list_to_set (pre c) ∧
  Graph.nodes r.1 = list_to_set (PostGraph.nodes (post c)) ∪ Graph.nodes g1 ∧
  r.2 = (ctx ++ filter (λ n, isBad (Graph.getData g n))
                       (PostGraph.nodes (post c)))
        ++ (if bool_decide (node ∈ Graph.nodes r.1) then [node] else []) ∧
  (∀ e, e ∈ PostGraph.edges (post c) →
        dst e ∈ Graph.edges r.1 (src e) ∧ src e ∈ Graph.edges r.1 (dst e)).
Proof.
  intros g1 r. subst g1 r. unfold update, update_add.
  pose proof (update_add_spec (PostGraph.nodes (post c)) (update_remove g c) ctx)
    as Hadd. simpl in Hadd.
  destruct (foldl update_add_step (update_remove g c, ctx) _) as [g2 ctx2].
  destruct Hadd as (Hn2 & Hp2 & _ & Hc2). simpl in *.
  pose proof (update_edges_spec (PostGraph.edges (post c)) g2) as Hedges.
  simpl in Hedges. unfold update_edges.
  destruct Hedges as (Hn3 & _ & He3).
  split; [apply update_remove_nodes|].
  split; [by rewrite Hn3, Hn2|].
  split; [|done].
  unfold Graph.containsNode. rewrite Hc2.
  assert (∀ n, Graph.getData (update_remove g c) n = Graph.getData g n) as Hd.
  { intros n. unfold Graph.getData, update_remove.
    by rewrite update_remove_payload. }
  rewrite (list_filter_iff _ (λ n, isBad (Graph.getData g n)))
    by (intros n; by rewrite Hd).
  case_bool_decide; [done|]. by rewrite app_nil_r.
Qed.
End commit_properties.

Section iteration_properties.
Context `{Geometry}.
Implicit Types (g : Graph.t) (c : Cavity) (n node next : GNode).

Lemma grow_inv fuel g c0 node g' c' :
  grow fuel g c0 node = Ok (g', c') →
  ∃ c1 c2, initialize fuel g c0 node = Ok c1 ∧ build fuel g c1 = Ok c2 ∧
           computePost g c2 = (g', c').
Proof.
  unfold grow. intros (c1 & Hinit & (c2 & Hbuild & [= Hpost])%bind_Ok_inv)%bind_Ok_inv.
  by exists c1, c2.
Qed.

(** C5: the only node with a segment payload ([dim() == 2]) that [expand]
    lets into [pre] is [centerNode]; after [initialize], [build] and
    [computePost] every segment in [pre] is the [centerNode], so [update]
    keeps in the graph every segment the cavity is not anchored on. *)
Theorem segment_in_pre_is_anchor fuel g :
  (∀ c node next c',
     (∀ n, n ∈ pre c → Element_dim (Graph.getData g n) = 2%Z →
           n = centerNode c) →
     expand fuel g c node next = Ok c' →
     ∀ n, n ∈ pre c' → Element_dim (Graph.getData g n) = 2%Z →
          n = centerNode c') ∧
  (∀ c0 node g' c' ctx,
     grow fuel g c0 node = Ok (g', c') →
     ∀ n, Element_dim (Graph.getData g n) = 2%Z →
          (n ∈ pre c' → n = centerNode c') ∧
          (n ≠ centerNode c' → n ∈ Graph.nodes g' →
           n ∈ Graph.nodes (update g' c' node ctx).1)).
Proof.
  split.
  - intros c node next c' HP Hexp.
    eapply (steps_invariant (λ _ _, True) g
              (λ c, ∀ n, n ∈ pre c → Element_dim (Graph.getData g n) = 2%Z →
                         n = centerNode c));
      [apply anchor_segment_step | by eapply expand_steps | done].
  - intros c0 node g' c' ctx (c1 & c2 & Hinit & Hbuild & Hpost)%grow_inv.
    assert (∀ n, n ∈ pre c2 → Element_dim (Graph.getData g n) = 2%Z →
                 n = centerNode c2) as HP.
    { eapply (steps_invariant (λ _ _, True) g
                (λ c, ∀ n, n ∈ pre c → Element_dim (Graph.getData g n) = 2%Z →
                           n = centerNode c));
        [apply anchor_segment_step | by eapply build_steps |].
      apply initialize_seed in Hinit as [t ->]. simpl.
      by intros n ->%list_elem_of_singleton _. }
    destruct (computePost_spec g c2) as (g2 & c3 & Heq & _ & _ & _ & Hpre & Hc).
    rewrite Hpost in Heq. injection Heq as <- <-.
    intros n Hseg. rewrite Hpre, Hc. split; [by auto|].
    intros Hne Hn.
    destruct (update_spec g' c' node ctx) as (Hrem & Hadd & _).
    rewrite Hadd, Hrem, Hpre. apply elem_of_union_r, elem_of_difference.
    split; [done|]. rewrite elem_of_list_to_set. intros Hin. by apply Hne, HP.
Qed.

(** [createNode] hands out an identifier no member of the graph has, and
    keeps the graph well formed. *)
Lemma createNode_fresh g e :
  Graph.wf g →
  (snd (Graph.createNode g e) ∉ Graph.nodes g) ∧
  (∀ n, n ∈ Graph.nodes (fst (Graph.createNode g e)) →
        n ≠ snd (Graph.createNode g e)) ∧
  Graph.wf (fst (Graph.createNode g e)).
Proof.
  intros [Halloc Hadj]. simpl.
  assert (∀ n, n ∈ Graph.nodes g → n ≠ Graph.nextId g) as Hne
    by (intros n Hn%Halloc; lia).
  split; [|split; [done|split]]; simpl.
  - intros Hin. by apply (Hne _ Hin).
  - intros n Hn%Halloc. lia.
  - intros n m. case_bool_decide; [by intros ?%elem_of_nil|]. apply Hadj.
Qed.

(** C6: [createNode] always returns, with an identifier that no member of
    the graph carries. Along [initialize], [build] and [computePost] the
    nodes of [pre]
    and the nodes of [post] never overlap: while the cavity grows [post] is
    empty, and after any number of boundary connections handled by
    [computePost] every node of [pre] is a member of the graph the cavity
    was grown on (an identifier allocated before), while every node of
    [post] is an identifier [createNode] handed out afterwards. *)
Theorem pre_post_disjoint fuel g c0 node c1 c2 :
  Graph.wf g → node ∈ Graph.nodes g →
  initialize fuel g c0 node = Ok c1 →
  build fuel g c1 = Ok c2 →
  (∀ e, (snd (Graph.createNode g e) ∉ Graph.nodes g) ∧
        (∀ n, n ∈ Graph.nodes (fst (Graph.createNode g e)) →
              n ≠ snd (Graph.createNode g e)) ∧
        Graph.wf (fst (Graph.createNode g e))) ∧
  (∀ c, rtc (step g (isEdge g)) c1 c → PostGraph.nodes (post c) = []) ∧
  rtc (step g (isEdge g)) c1 c2 ∧
  ∀ i,
    let r := foldl computePost_step (computePost_segment g c2)
                   (take i (connections c2)) in
    (∀ n, n ∈ pre r.2 → n ∈ Graph.nodes g ∧ n < Graph.nextId g) ∧
    (∀ n, n ∈ PostGraph.nodes (post r.2) →
          Graph.nextId g ≤ n < Graph.nextId r.1) ∧
    (∀ n, n ∈ pre r.2 → n ∉ PostGraph.nodes (post r.2)).
Proof.
  intros Hwf Hnode Hinit Hbuild.
  destruct (build_grown _ _ _ _ _ _ Hwf Hnode Hinit Hbuild) as [Hg1 Hg2].
  split; [|split; [|split]].
  - intros e. by apply createNode_fresh.
  - intros c Hc.
    assert (grown g c) as (_ & _ & ->); [|done].
    eapply (steps_invariant (isEdge g) g (grown g));
      [intros ???; by apply grown_step | done | done].
  - by eapply build_steps.
  - intros i r. subst r.
    destruct (computePost_prefix_spec g c2 i)
      as (g' & c' & -> & Hp & Hn & _ & Hpre & _).
    destruct Hg2 as (_ & Hin & Hpost). destruct Hwf as [Halloc _].
    simpl. rewrite Hp, Hpre, Hn, Hpost. simpl.
    assert (∀ n, n ∈ pre c2 → n ∈ Graph.nodes g ∧ n < Graph.nextId g) as Hold
      by (intros n Hn'; split; [|apply Halloc]; by apply Hin).
    split; [done|]. split.
    + intros n Hn'%elem_of_seq. lia.
    + intros n [_ Hlt]%Hold Hn'%elem_of_seq. lia.
Qed.

(** C1: [update(node, ctx)] removes from the graph exactly the nodes of
    [pre], then adds exactly the nodes of [post], pushes to the context
    every node of [post] whose element [isBad()], adds every edge recorded
    in [post], and finally pushes [node] iff the graph still contains it.
    For a cavity computed by [initialize], [build] and [computePost] from a
    node of a well-formed graph, the graph ends with [|pre|] fewer and
    [|post|] more members than before the call. *)
Theorem update_commits g c node ctx :
  let g1 := update_remove g c in
  let r := update g c node ctx in
  Graph.nodes g1 = Graph.nodes g ∖ list_to_set (pre c) ∧
  Graph.nodes r.1 = list_to_set (PostGraph.nodes (post c)) ∪ Graph.nodes g1 ∧
  r.2 = (ctx ++ filter (λ n, isBad (Graph.getData g n))
                       (PostGraph.nodes (post c)))
        ++ (if bool_decide (node ∈ Graph.nodes r.1) then [node] else []) ∧
  (∀ e, e ∈ PostGraph.edges (post c) →
        dst e ∈ Graph.edges r.1 (src e) ∧ src e ∈ Graph.edges r.1 (dst e)) ∧
  (∀ fuel g0 c0,
     Graph.wf g0 → node ∈ Graph.nodes g0 →
     grow fuel g0 c0 node = Ok (g, c) →
     size (Graph.nodes r.1) + length (pre c)
     = size (Graph.nodes g) + length (PostGraph.nodes (post c))).
Proof.
  intros g1 r.
  destruct (update_spec g c node ctx) as (Hrem & Hadd & Hctx & Hedges).
  fold g1 r in Hrem, Hadd, Hctx, Hedges.
  do 4 (split; [done|]).
  intros fuel g0 c0 Hwf Hnode (c1 & c2 & Hinit & Hbuild & Hpost)%grow_inv.
  destruct (build_grown _ _ _ _ _ _ Hwf Hnode Hinit Hbuild)
    as [_ (Hnd & Hin & Hempty)].
  destruct (computePost_spec g0 c2)
    as (g' & c' & Heq & Hp & _ & Hnodes & Hpre & _).
  rewrite Hpost in Heq. injection Heq as <- <-.
  rewrite Hempty in Hp. simpl in Hp.
  destruct Hwf as [Halloc _].
  rewrite Hadd, Hrem, Hp, Hpre, Hnodes.
  rewrite size_union.
  - rewrite size_list_to_set by apply NoDup_seq.
    rewrite size_difference.
    + rewrite size_list_to_set by done.
      assert (length (pre c2) ≤ size (Graph.nodes g0)); [|lia].
      rewrite <- (size_list_to_set (C := gset nat) (pre c2)) by done.
      apply subseteq_size. intros n Hn%elem_of_list_to_set. by apply Hin.
    + intros n Hn%elem_of_list_to_set. by apply Hin.
  - intros n Hn%elem_of_list_to_set%elem_of_seq [Hn' _]%elem_of_difference.
    apply Halloc in Hn'. lia.
Qed.
End iteration_properties.

Section termination.
Context `{Geometry}.
Implicit Types (g : Graph.t) (c : Cavity) (n node next : GNode).

Lemma filter_agree (P Q : nat → Prop) `{∀ n, Decision (P n)}
    `{∀ n, Decision (Q n)} (l : list nat) :
  (∀ n, n ∈ l → (P n ↔ Q n)) → filter P l = filter Q l.
Proof.
  induction l as [|y l IH]; intros Hagree; [done|].
  rewrite !filter_cons, IH by (intros n Hn; apply Hagree; by right).
  destruct (decide (P y)) as [HP|HP].
  - rewrite decide_True; [done|]. apply Hagree; [left|done].
  - rewrite decide_False; [done|]. intros HQ. apply HP, Hagree; [left|done].
Qed.

Lemma filter_drop_one (P Q : nat → Prop) `{∀ n, Decision (P n)}
    `{∀ n, Decision (Q n)} (l : list nat) (x : nat) :
  NoDup l → x ∈ l → P x → (∀ n, Q n ↔ P n ∧ n ≠ x) →
  S (length (filter Q l)) = length (filter P l).
Proof.
  intros Hnd Hx HPx HQ. induction Hnd as [|y l Hy Hnd IH].
  - by apply elem_of_nil in Hx.
  - rewrite !filter_cons. destruct (decide (y = x)) as [->|Hne].
    + rewrite (decide_True (P:=P x)) by done.
      rewrite (decide_False (P:=Q x)) by (rewrite HQ; tauto). simpl. f_equal.
      f_equal. apply filter_agree. intros n Hn. rewrite HQ.
      split; [tauto|]. intros ?. split; [done|]. by intros ->.
    + apply elem_of_cons in Hx as [?|Hx]; [done|]. specialize (IH Hx).
      destruct (decide (P y)) as [HPy|HPy].
      * rewrite (decide_True (P:=Q y)) by (rewrite HQ; tauto). simpl. lia.
      * rewrite (decide_False (P:=Q y)) by (rewrite HQ; tauto). done.
Qed.

Lemma outside_bound g c : outside g c ≤ Graph.nextId g.
Proof.
  unfold outside. etrans; [apply length_filter|]. by rewrite length_seq.
Qed.

Lemma pending_push g c next :
  next < Graph.nextId g → next ∉ pre c →
  pending g (push c next) = pending g c.
Proof.
  intros Hlt Hfresh. unfold pending, outside. simpl.
  rewrite <- (filter_drop_one (λ n, n ∉ pre c)
                (λ n, n ∉ PreGraph.addNode (pre c) next)
                (seq 0 (Graph.nextId g)) next).
  - lia.
  - apply NoDup_seq.
  - apply elem_of_seq. lia.
  - done.
  - intros n. unfold PreGraph.addNode.
    rewrite not_elem_of_app, list_elem_of_singleton. done.
Qed.

Lemma pending_pop g c curr rest :
  frontier c = curr :: rest →
  S (pending g (set_frontier rest c)) = pending g c.
Proof. intros Hfr. unfold pending, outside. simpl. by rewrite Hfr. Qed.

(** A cavity anchored on a segment never re-anchors: [expand] returns at
    once and does not add to the pending work. *)
Lemma expand_anchored bld fl g c node next :
  dim c = 2%Z → next < Graph.nextId g →
  ∃ c', expand_with bld fl g c node next = Ok c' ∧
        dim c' = 2%Z ∧ pending g c' ≤ pending g c.
Proof.
  intros Hdim Hlt.
  destruct (isMember c next (Graph.getData g next)) eqn:Hmem.
  - rewrite expand_with_member by tauto.
    case_bool_decide as Hin; eexists; (split; [done|]); [done|].
    split; [done|]. by rewrite pending_push.
  - rewrite expand_with_boundary by done.
    destruct (found _ _); eexists; (split; [done|]); done.
Qed.

Lemma for_each_anchored bld fl g node xs c :
  dim c = 2%Z → (∀ x, x ∈ xs → x < Graph.nextId g) →
  ∃ c', for_each (λ c x, expand_with bld fl g c node x) xs c = Ok c' ∧
        dim c' = 2%Z ∧ pending g c' ≤ pending g c.
Proof.
  revert c. induction xs as [|x xs IH]; intros c Hdim Hxs; simpl.
  - by exists c.
  - destruct (expand_anchored bld fl g c node x) as (c1 & -> & Hd1 & Hp1);
      [done | apply Hxs; left |].
    returned. destruct (IH c1) as (c' & -> & Hd & Hp);
      [done | intros y Hy; apply Hxs; by right |].
    exists c'. simpl. repeat split; [done|lia].
Qed.

Lemma build_anchored g :
  (∀ n m, isEdge g n m → m < Graph.nextId g) →
  ∀ fuel c, dim c = 2%Z → pending g c ≤ fuel →
  ∃ c', build fuel g c = Ok c' ∧ dim c' = 2%Z ∧ frontier c' = [].
Proof.
  intros Hfin. induction fuel as [|fuel IH]; intros c Hdim Hfuel.
  - destruct (frontier c) as [|curr rest] eqn:Hfr.
    + exists c. simpl. by rewrite Hfr.
    + pose proof (pending_pop g c curr rest Hfr). lia.
  - simpl. destruct (frontier c) as [|curr rest] eqn:Hfr; [by exists c|].
    destruct (for_each_anchored (build fuel g) fuel g curr
                (Graph.edges g curr) (set_frontier rest c))
      as (c1 & -> & Hd1 & Hp1); [done | by apply Hfin |].
    returned. apply IH; [done|].
    pose proof (pending_pop g c curr rest Hfr). lia.
Qed.

(** A segment is never obtuse, so re-anchoring on it stops at once. *)
Lemma initialize_segment g next fl c :
  (∀ n, Element_dim (Graph.getData g n) = 2%Z →
        isObtuse (Graph.getData g n) = false) →
  Element_dim (Graph.getData g next) = 2%Z →
  initialize fl g c next = Ok (seed g next).
Proof.
  intros Hseg Hnext. rewrite initialize_unfold.
  assert (initialize_loop fl g next (Graph.getData g next)
          = Ok (next, Graph.getData g next)) as ->; [|done].
  destruct fl; simpl; by rewrite (Hseg next Hnext), andb_false_r.
Qed.

Lemma expand_total g fl c node next :
  (∀ n m, isEdge g n m → m < Graph.nextId g) →
  (∀ n, Element_dim (Graph.getData g n) = 2%Z →
        isObtuse (Graph.getData g n) = false) →
  next < Graph.nextId g → Graph.nextId g + 1 ≤ fl →
  ∃ c', expand_with (build fl g) fl g c node next = Ok c' ∧
        ((dim c' = 2%Z ∧ pending g c' ≤ Graph.nextId g) ∨
         pending g c' ≤ pending g c).
Proof.
  intros Hfin Hseg Hlt Hfl.
  destruct (isMember c next (Graph.getData g next)) eqn:Hmem.
  - destruct (decide (Element_dim (Graph.getData g next) = 2%Z ∧ dim c ≠ 2%Z))
      as [[Hnext Hdim]|Hno].
    + unfold expand_with. rewrite Hmem, !bool_decide_eq_true_2 by done.
      cbn [andb]. rewrite (initialize_segment g next fl c Hseg Hnext).
      returned. destruct (build_anchored g Hfin fl (seed g next))
        as (c' & -> & Hd & Hfr); [done | |].
      { unfold pending. simpl. pose proof (outside_bound g (seed g next)). lia. }
      exists c'. split; [done|]. left. split; [done|].
      unfold pending. rewrite Hfr. apply outside_bound.
    + rewrite expand_with_member by done.
      case_bool_decide as Hin; eexists; (split; [done|]); right; [done|].
      by rewrite pending_push.
  - rewrite expand_with_boundary by done.
    destruct (found _ _); eexists; (split; [done|]); by right.
Qed.

Lemma for_each_total g fl node xs c :
  (∀ n m, isEdge g n m → m < Graph.nextId g) →
  (∀ n, Element_dim (Graph.getData g n) = 2%Z →
        isObtuse (Graph.getData g n) = false) →
  (∀ x, x ∈ xs → x < Graph.nextId g) → Graph.nextId g + 1 ≤ fl →
  ∃ c', for_each (λ c x, expand_with (build fl g) fl g c node x) xs c = Ok c' ∧
        ((dim c' = 2%Z ∧ pending g c' ≤ Graph.nextId g) ∨
         pending g c' ≤ pending g c).
Proof.
  intros Hfin Hseg Hxs Hfl. revert c Hxs.
  induction xs as [|x xs IH]; intros c Hxs; simpl.
  - exists c. split; [done|]. by right.
  - destruct (expand_total g fl c node x Hfin Hseg) as (c1 & -> & Hc1);
      [apply Hxs; left | done |].
    returned. destruct Hc1 as [[Hd1 Hp1]|Hp1].
    + destruct (for_each_anchored (build fl g) fl g node xs c1)
        as (c' & -> & Hd & Hp); [done | intros y Hy; apply Hxs; by right |].
      exists c'. split; [done|]. left. split; [done|lia].
    + destruct (IH c1) as (c' & -> & Hc'); [intros y Hy; apply Hxs; by right|].
      exists c'. split; [done|]. destruct Hc' as [?|?]; [by left|right; lia].
Qed.

Lemma build_total g :
  (∀ n m, isEdge g n m → m < Graph.nextId g) →
  (∀ n, Element_dim (Graph.getData g n) = 2%Z →
        isObtuse (Graph.getData g n) = false) →
  ∀ fuel c, pending g c + Graph.nextId g + 1 ≤ fuel →
  ∃ c', build fuel g c = Ok c' ∧ frontier c' = [].
Proof.
  intros Hfin Hseg. induction fuel as [|fuel IH]; intros c Hfuel; [lia|].
  simpl. destruct (frontier c) as [|curr rest] eqn:Hfr; [by exists c|].
  assert (pending g (set_frontier rest c) + Graph.nextId g + 1 ≤ fuel) as Hpop.
  { pose proof (pending_pop g c curr rest Hfr). lia. }
  destruct (for_each_total g fuel curr (Graph.edges g curr)
              (set_frontier rest c) Hfin Hseg)
    as (c1 & -> & Hc1); [by apply Hfin | lia |].
  returned. destruct Hc1 as [[Hd1 Hp1]|Hp1].
  - destruct (build_anchored g Hfin fuel c1) as (c' & -> & _ & Hfr');
      [done | lia | by exists c'].
  - apply IH. lia.
Qed.

(** C10: on a finite well-formed graph whose segment elements are never
    obtuse, [build()] returns from every cavity state, within
    [|frontier| + 2 * (number of allocated nodes) + 1] rounds of its outer
    loop, with the frontier drained. A member enters [frontier] only
    together with its first entry into [pre]; a re-anchoring needs a cavity
    [dim] different from 2 and leaves the cavity anchored on the segment,
    with [dim == 2]. *)
Theorem build_terminates g :
  Graph.wf g →
  (∀ n, Element_dim (Graph.getData g n) = 2%Z →
        isObtuse (Graph.getData g n) = false) →
  (∀ c fuel,
     length (frontier c) + 2 * Graph.nextId g + 1 ≤ fuel →
     ∃ c', build fuel g c = Ok c' ∧ frontier c' = []) ∧
  (∀ c c', step g (isEdge g) c c' →
     (dim c ≠ 2%Z ∧ dim c' = 2%Z) ∨
     (dim c' = dim c ∧ pre c `prefix_of` pre c' ∧
      ∀ n, n ∈ frontier c' → n ∈ frontier c ∨ (n ∈ pre c' ∧ n ∉ pre c))).
Proof.
  intros [Halloc Hadj] Hseg.
  assert (∀ n m, isEdge g n m → m < Graph.nextId g) as Hfin
    by (intros n m Hm; by eapply Halloc, Hadj).
  split.
  - intros c fuel Hfuel. apply (build_total g Hfin Hseg).
    unfold pending. pose proof (outside_bound g c). lia.
  - intros c c' Hstep. destruct Hstep as
      [c curr rest Hfr | c node next fuel c' _ _ Hnext Hdim Hinit
      | c node next _ _ _ Hfresh | c node next _ _ _]; simpl.
    + right. split; [done|]. split; [done|]. intros n Hn. left.
      rewrite Hfr. by right.
    + left. rewrite (initialize_segment g next fuel c Hseg Hnext) in Hinit.
      by injection Hinit as <-.
    + right. split; [done|]. split; [by apply prefix_app_r|].
      intros n [->|Hn]%elem_of_cons; [|by left]. right.
      split; [|done]. unfold PreGraph.addNode. apply elem_of_app. right.
      by left.
    + right. split; [done|]. split; [done|]. intros n Hn. by left.
Qed.
End termination.

(** * The properties on a concrete mesh *)
Section mesh_runs.
Import Lattice.

Lemma mesh_wf : Graph.wf mesh.
Proof.
  split.
  - intros n Hn%elem_of_list_to_set. simpl.
    repeat (apply elem_of_cons in Hn as [->|Hn]; [lia|]).
    by apply elem_of_nil in Hn.
  - intros n m Hm. apply elem_of_list_to_set.
    do 6 (destruct n as [|n];
          [simpl in Hm;
           repeat (apply elem_of_cons in Hm as [->|Hm];
                   [by repeat constructor|]);
           by apply elem_of_nil in Hm|]).
    by apply elem_of_nil in Hm.
Qed.

Lemma mesh_segments_not_obtuse n :
  Element_dim (Graph.getData mesh n) = 2%Z →
  isObtuse (Graph.getData mesh n) = false.
Proof. by do 6 (destruct n as [|n]; [done|]). Qed.

Lemma mesh_contains_0 : 0 ∈ Graph.nodes mesh.
Proof. apply elem_of_list_to_set. by repeat constructor. Qed.

Lemma mesh_initialize : initialize 10 mesh blank 0 = Ok (seed mesh 1).
Proof. vm_compute. reflexivity. Qed.

Lemma mesh_build : build 10 mesh (seed mesh 1) = Ok builtCavity.
Proof. vm_compute. reflexivity. Qed.

Lemma mesh_grow : grow 10 mesh blank 0 = Ok (grownMesh.1, grownMesh.2).
Proof.
  unfold grow. rewrite mesh_initialize. returned. rewrite mesh_build. returned.
  unfold grownMesh. by destruct (computePost mesh builtCavity).
Qed.

(** The commit on the mesh: six members, three removed, five added. *)
Lemma update_commits_witness :
  size (Graph.nodes (update grownMesh.1 grownMesh.2 0 []).1)
  + length (pre grownMesh.2)
  = size (Graph.nodes grownMesh.1)
    + length (PostGraph.nodes (post grownMesh.2)).
Proof.
  destruct (update_commits grownMesh.1 grownMesh.2 0 [])
    as (_ & _ & _ & _ & Hcount).
  apply (Hcount 10 mesh blank).
  - exact mesh_wf.
  - exact mesh_contains_0.
  - exact mesh_grow.
Defined.

(** The three branches of [expand] on the mesh: the triangle cavity meets
    the encroached segment 4, then the triangle 0; the segment cavity meets
    the second segment 5. *)
Lemma expand_classifies_witness :
  expand 10 mesh (seed mesh 1) 1 4
  = (c' ← initialize 10 mesh (seed mesh 1) 4; build 10 mesh c') ∧
  expand 10 mesh (seed mesh 1) 1 0
  = Ok (if bool_decide (0 ∈ pre (seed mesh 1)) then seed mesh 1
        else set_frontier (0 :: frontier (seed mesh 1))
               (set_pre (pre (seed mesh 1) ++ [0]) (seed mesh 1))) ∧
  ∃ c', expand 10 mesh (seed mesh 4) 1 5 = Ok c' ∧
        pre c' = pre (seed mesh 4) ∧ frontier c' = frontier (seed mesh 4).
Proof.
  split; [|split].
  - apply (proj1 (expand_classifies 10 mesh (seed mesh 1) 1 4)).
    + split; [reflexivity | intros [Hdim _]; discriminate Hdim].
    + reflexivity.
    + intros Hdim; discriminate Hdim.
  - apply (proj1 (proj2 (expand_classifies 10 mesh (seed mesh 1) 1 0))).
    + split; [reflexivity | intros [Hdim _]; discriminate Hdim].
    + intros [Hdim _]; discriminate Hdim.
  - apply (proj2 (proj2 (expand_classifies 10 mesh (seed mesh 4) 1 5))).
    intros [_ Hsecond]. apply Hsecond.
    split; [reflexivity | split; [reflexivity | intros Heq; discriminate Heq]].
Defined.

(** From the obtuse triangle 0 the chain jumps once, to the triangle 1. *)
Lemma initialize_terminal_witness :
  ∃ c', initialize 10 mesh blank 0 = Ok c' ∧
        center c' = getCenter (Graph.getData mesh 1) ∧
        dim c' = Element_dim (Graph.getData mesh 1) ∧
        centerNode c' = 1 ∧
        centerElement c' = Graph.getData mesh 1 ∧
        pre c' = [1] ∧ frontier c' = [1] ∧
        PostGraph.nodes (post c') = [] ∧ PostGraph.edges (post c') = [] ∧
        connections c' = [].
Proof.
  apply (initialize_terminal mesh 0 1 1).
  - apply (chain_jump mesh 0 1 0 1); [reflexivity | reflexivity |].
    apply chain_stop. reflexivity.
  - lia.
Defined.

(** A second [initialize(0)] on the cavity the first one left. *)
Lemma initialize_idempotent_witness :
  initialize 10 mesh (seed mesh 1) 0 = Ok (seed mesh 1).
Proof. apply (initialize_idempotent 10 mesh blank 0). exact mesh_initialize. Defined.

Lemma tornMesh_deadEnd : deadEnd tornMesh 6 1.
Proof.
  apply (deadEnd_jump tornMesh 6 0 0); [reflexivity | reflexivity |].
  apply deadEnd_here; [reflexivity | by repeat constructor].
Qed.

(** On the sound mesh [getOpposite(0)] returns node 1, the third of its
    three neighbours. On the malformed mesh it aborts on node 0, and the
    iteration started on node 6, whose opposite is node 0, aborts too. *)
Lemma getOpposite_fatal_witness :
  getOpposite mesh 0 = Ok 1 ∧
  length (Graph.edges tornMesh 0) = 3 ∧
  getOpposite tornMesh 0 = Die "unreachable" ∧
  initialize 2 tornMesh blank 6 = Die "unreachable" ∧
  grow 2 tornMesh blank 6 = Die "unreachable".
Proof.
  destruct (getOpposite_fatal mesh 0) as (Hok & _).
  destruct (getOpposite_fatal tornMesh 0) as (_ & _ & Hdie & _).
  destruct (getOpposite_fatal tornMesh 6) as (_ & _ & _ & _ & _ & Hrun & _).
  split; [|split; [reflexivity | split]].
  - apply Hok. exists [2; 3], []. split; [reflexivity|].
    split; [by repeat constructor | reflexivity].
  - apply Hdie. by repeat constructor.
  - apply (Hrun 1 2 blank); [exact tornMesh_deadEnd | lia].
Defined.

(** C7, as stated, fails: the obtuse triangles 0 and 1 of the malformed
    mesh have three neighbours each, none of them opposite the obtuse
    corner, and [getOpposite] gives the same diagnostic for both, so the
    diagnostic does not tell which node offended. *)
Lemma diagnostic_same_for_two_nodes : ¬ diagnosticIdentifiesNode tornMesh.
Proof.
  intros [decode Hdecode].
  pose proof (Hdecode 0 "unreachable" eq_refl eq_refl) as H0.
  pose proof (Hdecode 1 "unreachable" eq_refl eq_refl) as H1.
  rewrite H0 in H1. discriminate H1.
Qed.

(** The three boundary entries of the cavity grown on the mesh differ. *)
Lemma connections_deduplicated_witness :
  distinctEntries (connections builtCavity).
Proof.
  apply (proj2 (proj2 (connections_deduplicated 10 mesh blank 0 0))
           (seed mesh 1) builtCavity).
  - exact mesh_initialize.
  - exact mesh_build.
Defined.

(** The segment cavity with three connections gets five new nodes. *)
Lemma computePost_count_witness :
  PostGraph.nodes (post (computePost mesh builtCavity).2) = [6; 7; 8; 9; 10] ∧
  length (PostGraph.nodes (post (computePost mesh builtCavity).2)) = 5 ∧
  Graph.nextId (computePost mesh builtCavity).1 = 11.
Proof. exact (computePost_count mesh builtCavity). Defined.

(** The cavity is anchored on segment 4; segment 5 survives the commit. *)
Lemma segment_in_pre_is_anchor_witness :
  (4 ∈ pre grownMesh.2 → 4 = centerNode grownMesh.2) ∧
  5 ∈ Graph.nodes (update grownMesh.1 grownMesh.2 0 []).1.
Proof.
  destruct (proj2 (segment_in_pre_is_anchor 10 mesh) blank 0
              grownMesh.1 grownMesh.2 [] mesh_grow 4 eq_refl) as [Hpre _].
  destruct (proj2 (segment_in_pre_is_anchor 10 mesh) blank 0
              grownMesh.1 grownMesh.2 [] mesh_grow 5 eq_refl) as [_ Hkept].
  split; [exact Hpre|]. apply Hkept.
  - vm_compute. intros Heq; discriminate Heq.
  - vm_compute. reflexivity.
Defined.

(** After the three connections [pre] is 4, 1, 0 and [post] is 6 to 10. *)
Lemma pre_post_disjoint_witness :
  Forall (λ n, n ∉ PostGraph.nodes
                     (post (foldl computePost_step
                                  (computePost_segment mesh builtCavity)
                                  (take 3 (connections builtCavity))).2))
         (pre (foldl computePost_step (computePost_segment mesh builtCavity)
                     (take 3 (connections builtCavity))).2).
Proof.
  apply Forall_forall.
  apply (proj2 (proj2 (proj2 (pre_post_disjoint 10 mesh blank 0 (seed mesh 1)
                                builtCavity mesh_wf mesh_contains_0
                                mesh_initialize mesh_build))) 3).
Defined.

(** The mesh has six allocated nodes: fourteen rounds are enough. *)
Lemma build_terminates_witness :
  ∃ c', build 14 mesh (seed mesh 1) = Ok c' ∧ frontier c' = [].
Proof.
  apply (proj1 (build_terminates mesh mesh_wf mesh_segments_not_obtuse)).
  simpl. lia.
Defined.
End mesh_runs.

(** * Further properties of the cavity *)
Section cavity_shape_properties.
Context `{Geometry}.
Implicit Types (g : Graph.t) (c : Cavity) (n node next : GNode).

Lemma found_app (l : list EdgeTuple) (x e : EdgeTuple) :
  found (l ++ [x]) e = found l e || EdgeTuple_eqb x e.
Proof. unfold found. rewrite existsb_app. simpl. by rewrite orb_false_r. Qed.

Lemma recorded_snoc (l : list EdgeTuple) (x e : EdgeTuple) :
  recorded l e → recorded (l ++ [x]) e.
Proof.
  intros [Hin | Hf]; [left; apply elem_of_app; by left|].
  right. by rewrite found_app, Hf.
Qed.

Lemma handled_push g c next n m :
  handled g c n m → handled g (push c next) n m.
Proof.
  unfold handled. change (isMember (push c next)) with (isMember c).
  destruct (isMember c m (Graph.getData g m)); [|done].
  intros Hm. simpl. unfold PreGraph.addNode. apply elem_of_app. by left.
Qed.

Lemma handled_record g c e n m :
  handled g c n m → handled g (set_connections (connections c ++ [e]) c) n m.
Proof.
  unfold handled.
  change (isMember (set_connections (connections c ++ [e]) c))
    with (isMember c).
  destruct (isMember c m (Graph.getData g m)); [done|]. apply recorded_snoc.
Qed.

Lemma settled_seed g t : settled g (seed g t).
Proof. intros n Hn. by left. Qed.

(** One call of [expand] from the loop of [build]. *)
Lemma expand_settled g bld fl curr seen c next c' :
  (∀ c1 c2, settled g c1 → bld c1 = Ok c2 → settled g c2 ∧ frontier c2 = []) →
  settledBut g curr seen c →
  expand_with bld fl g c curr next = Ok c' →
  settledBut g curr (seen ++ [next]) c'.
Proof.
  intros Hbld Hinv.
  destruct (isMember c next (Graph.getData g next)) eqn:Hmem.
  - destruct (decide (Element_dim (Graph.getData g next) = 2%Z ∧ dim c ≠ 2%Z))
      as [[Hseg Hdim]|Hno].
    + unfold expand_with. rewrite Hmem, !bool_decide_eq_true_2 by done.
      cbn [andb]. intros (c1 & Hinit & Hb)%bind_Ok_inv.
      apply initialize_seed in Hinit as [t ->].
      destruct (Hbld _ _ (settled_seed g t) Hb) as [Hset Hfr].
      intros n Hn. destruct (Hset n Hn) as [Hin | Hcl]; [|by right; left].
      rewrite Hfr in Hin. by apply elem_of_nil in Hin.
    + rewrite expand_with_member by done. intros [= <-].
      case_bool_decide as Hin.
      * intros n Hn. destruct (Hinv n Hn) as [?|[?|[-> Hseen]]];
          [by left | by right; left |]. right. right. split; [done|].
        intros m [Hm | ->%list_elem_of_singleton]%elem_of_app; [by apply Hseen|].
        unfold handled. by rewrite Hmem.
      * intros n [Hn | ->%list_elem_of_singleton]%elem_of_app;
          [|left; by left].
        destruct (Hinv n Hn) as [Hfr | [Hcl | [-> Hseen]]].
        -- left. by right.
        -- right. left. intros m Hm. by apply handled_push, Hcl.
        -- right. right. split; [done|].
           intros m [Hm | ->%list_elem_of_singleton]%elem_of_app;
             [by apply handled_push, Hseen|].
           unfold handled. change (isMember (push c next)) with (isMember c).
           rewrite Hmem. simpl. unfold PreGraph.addNode. apply elem_of_app.
           right. by left.
  - rewrite expand_with_boundary by done. intros [= <-].
    destruct (found (connections c) (boundaryEdge g curr next)) eqn:Hf.
    + intros n Hn. destruct (Hinv n Hn) as [?|[?|[-> Hseen]]];
        [by left | by right; left |]. right. right. split; [done|].
      intros m [Hm | ->%list_elem_of_singleton]%elem_of_app; [by apply Hseen|].
      unfold handled. rewrite Hmem. by right.
    + intros n Hn. destruct (Hinv n Hn) as [Hfr | [Hcl | [-> Hseen]]].
      * by left.
      * right. left. intros m Hm. by apply handled_record, Hcl.
      * right. right. split; [done|].
        intros m [Hm | ->%list_elem_of_singleton]%elem_of_app;
          [by apply handled_record, Hseen|].
        unfold handled.
        change (isMember (set_connections
                            (connections c ++ [boundaryEdge g curr next]) c))
          with (isMember c).
        rewrite Hmem. left. apply elem_of_app. right. by left.
Qed.

Lemma for_each_settled g bld fl curr xs seen c c' :
  (∀ c1 c2, settled g c1 → bld c1 = Ok c2 → settled g c2 ∧ frontier c2 = []) →
  settledBut g curr seen c →
  for_each (λ c x, expand_with bld fl g c curr x) xs c = Ok c' →
  settledBut g curr (seen ++ xs) c'.
Proof.
  intros Hbld. revert seen c. induction xs as [|x xs IH]; intros seen c Hinv.
  - simpl. intros [= <-]. by rewrite app_nil_r.
  - simpl. intros (c1 & Hx & Hrest)%bind_Ok_inv.
    replace (seen ++ x :: xs) with ((seen ++ [x]) ++ xs)
      by by rewrite <- app_assoc.
    eapply IH; [|done]. by eapply expand_settled.
Qed.

Lemma build_settled g fuel c c' :
  settled g c → build fuel g c = Ok c' → settled g c' ∧ frontier c' = [].
Proof.
  revert c c'. induction fuel as [|fuel IH]; intros c c' Hinv; simpl.
  - destruct (frontier c) eqn:Hfr; [by intros [= <-] | discriminate].
  - destruct (frontier c) as [|curr rest] eqn:Hfr; [by intros [= <-]|].
    intros (c1 & Hfor & Hb)%bind_Ok_inv.
    apply (IH c1 c'); [|done].
    assert (settledBut g curr ([] ++ Graph.edges g curr) c1) as Hloop.
    { eapply (for_each_settled g (build fuel g) fuel); [apply IH| |done].
      intros n Hn. simpl in Hn. destruct (Hinv n Hn) as [Hin | Hcl].
      - rewrite Hfr in Hin. apply elem_of_cons in Hin as [-> | Hin].
        + right. right. split; [done|]. by intros m ?%elem_of_nil.
        + by left.
      - right. by left. }
    intros n Hn. destruct (Hloop n Hn) as [?|[?|[-> Hseen]]];
      [by left | by right |]. right. intros m Hm. by apply Hseen.
Qed.

(** X1: when [build()] returns after [initialize], the frontier is empty
    and the cavity is closed: every neighbour of every node of [pre] has been
    classified for the final anchor. A neighbour that [expand] takes for a
    member (its element contains [center] in its circle and it is not a
    second segment) is in [pre]; for any other neighbour an entry equal to
    the boundary entry of the pair is in [connections]. This holds also when
    the cavity was re-anchored and [initialize] cleared the frontier on the
    way. *)
Theorem cavity_closed fuel g c0 node c1 c2 :
  initialize fuel g c0 node = Ok c1 →
  build fuel g c1 = Ok c2 →
  frontier c2 = [] ∧
  ∀ n m, n ∈ pre c2 → m ∈ Graph.edges g n →
         let member :=
           inCircle (Graph.getData g m) (center c2) = true ∧
           ¬ (dim c2 = 2%Z ∧ Element_dim (Graph.getData g m) = 2%Z ∧
              m ≠ centerNode c2) in
         (member → m ∈ pre c2) ∧
         (¬ member →
          boundaryEdge g n m ∈ connections c2 ∨
          found (connections c2) (boundaryEdge g n m) = true).
Proof.
  intros Hinit Hbuild. apply initialize_seed in Hinit as [t ->].
  destruct (build_settled g fuel _ _ (settled_seed g t) Hbuild) as [Hset Hfr].
  split; [done|]. intros n m Hn Hm member.
  destruct (Hset n Hn) as [Hin | Hcl];
    [rewrite Hfr in Hin; by apply elem_of_nil in Hin|].
  specialize (Hcl m Hm). unfold handled in Hcl.
  destruct (isMember c2 m (Graph.getData g m)) eqn:Hmem.
  - split; [done|]. intros Hno. by apply isMember_true in Hmem.
  - split; [|done]. intros Hyes%isMember_true. congruence.
Qed.

(** X2: the node [getOpposite(node)] returns is the first neighbour, in the
    order of the edge list, whose shared edge avoids the obtuse point: every
    neighbour visited before it shares an edge that contains the point. *)
Theorem getOpposite_first g node m :
  getOpposite g node = Ok m →
  ∃ l1 l2, Graph.edges g node = l1 ++ m :: l2 ∧
           Forall (λ x, avoidsObtuse g (Graph.getData g node) x = false) l1 ∧
           avoidsObtuse g (Graph.getData g node) m = true.
Proof. apply getOpposite_loop_first. Qed.

Lemma anchored_seed g t : anchored g (seed g t).
Proof. repeat split. simpl. by left. Qed.

Lemma anchored_step E g c c' : anchored g c → step g E c c' → anchored g c'.
Proof.
  intros (He & Hc & Hd & Hin) Hstep. destruct Hstep as
    [c curr rest _ | c node next fuel c' _ _ _ _ Hinit
    | c node next _ _ _ _ | c node next _ _ _]; try done.
  - apply initialize_seed in Hinit as [t ->]. apply anchored_seed.
  - repeat split; try done. simpl. unfold PreGraph.addNode.
    apply elem_of_app. by left.
Qed.

Lemma build_keeps_anchored fuel g c0 node c1 c2 :
  initialize fuel g c0 node = Ok c1 →
  build fuel g c1 = Ok c2 →
  anchored g c2.
Proof.
  intros Hinit Hbuild.
  eapply (steps_invariant (λ _ _, True) g (anchored g));
    [intros ???; by eapply anchored_step | by eapply build_steps |].
  apply initialize_seed in Hinit as [t ->]. apply anchored_seed.
Qed.

(** X3: after [initialize] and [build], however often the cavity was
    re-anchored, the anchor fields agree: [centerElement] is the element of
    [centerNode], [center] is its circumcenter, [dim] is its [dim()], and
    [centerNode] is in [pre]. So the test [centerElement->dim() == 2] of
    [computePost] and the test [dim == 2] of [expand] decide alike. *)
Theorem anchor_fields_agree fuel g c0 node c1 c2 :
  initialize fuel g c0 node = Ok c1 →
  build fuel g c1 = Ok c2 →
  anchored g c2 ∧
  anchorNodes c2 = (if bool_decide (dim c2 = 2%Z) then 2 else 0).
Proof.
  intros Hinit Hbuild.
  pose proof (build_keeps_anchored _ _ _ _ _ _ Hinit Hbuild) as Hanch.
  split; [done|]. destruct Hanch as (_ & _ & Hd & _).
  unfold anchorNodes. by rewrite Hd.
Qed.

Lemma in_circle_step E g c c' :
  (NoDup (pre c) ∧
   ∀ n, n ∈ pre c →
        n = centerNode c ∨ inCircle (Graph.getData g n) (center c) = true) →
  step g E c c' →
  NoDup (pre c') ∧
  ∀ n, n ∈ pre c' →
       n = centerNode c' ∨ inCircle (Graph.getData g n) (center c') = true.
Proof.
  intros [Hnd HP] Hstep. destruct Hstep as
    [c curr rest _ | c node next fuel c' _ _ _ _ Hinit
    | c node next _ Hmem _ Hfresh | c node next _ _ _]; try done.
  - apply initialize_seed in Hinit as [t ->]. simpl. split.
    + apply NoDup_singleton.
    + intros n ->%list_elem_of_singleton. by left.
  - simpl. unfold PreGraph.addNode. split.
    + apply NoDup_app. split; [done|]. split; [|apply NoDup_singleton].
      by intros n Hn ->%list_elem_of_singleton.
    + intros n [Hn | ->%list_elem_of_singleton]%elem_of_app; [by apply HP|].
      right. by apply isMember_true in Hmem as [? _].
Qed.

Lemma build_in_circle fuel g c0 node c1 c2 :
  initialize fuel g c0 node = Ok c1 →
  build fuel g c1 = Ok c2 →
  NoDup (pre c2) ∧
  ∀ n, n ∈ pre c2 →
       n = centerNode c2 ∨ inCircle (Graph.getData g n) (center c2) = true.
Proof.
  intros Hinit Hbuild.
  eapply (steps_invariant (λ _ _, True) g
            (λ c, NoDup (pre c) ∧
                  ∀ n, n ∈ pre c →
                       n = centerNode c
                       ∨ inCircle (Graph.getData g n) (center c) = true));
    [intros ???; by eapply in_circle_step | by eapply build_steps |].
  apply initialize_seed in Hinit as [t ->]. simpl. split.
  - apply NoDup_singleton.
  - intros n ->%list_elem_of_singleton. by left.
Qed.

(** X4: after [initialize] and [build], [pre] lists no node twice, and every
    node of [pre] other than [centerNode] has an element whose circle
    contains the final [center], also when the cavity was re-anchored on the
    way. *)
Theorem pre_nodes_in_circle fuel g c0 node c1 c2 :
  initialize fuel g c0 node = Ok c1 →
  build fuel g c1 = Ok c2 →
  NoDup (pre c2) ∧
  ∀ n, n ∈ pre c2 → n ≠ centerNode c2 →
       inCircle (Graph.getData g n) (center c2) = true.
Proof.
  intros Hinit Hbuild.
  destruct (build_in_circle _ _ _ _ _ _ Hinit Hbuild) as [Hnd HP].
  split; [done|]. intros n Hn Hne. by destruct (HP n Hn).
Qed.

Lemma boundary_step g c c' :
  (∀ e, e ∈ connections c →
        isEdge g (src e) (dst e) ∧
        e = boundaryEdge g (src e) (dst e) ∧
        isMember c (dst e) (Graph.getData g (dst e)) = false) →
  step g (isEdge g) c c' →
  ∀ e, e ∈ connections c' →
       isEdge g (src e) (dst e) ∧
       e = boundaryEdge g (src e) (dst e) ∧
       isMember c' (dst e) (Graph.getData g (dst e)) = false.
Proof.
  intros HP Hstep. destruct Hstep as
    [c curr rest _ | c node next fuel c' _ _ _ _ Hinit
    | c node next _ _ _ _ | c node next Hedge Hmem _]; try done.
  - apply initialize_seed in Hinit as [t ->]. simpl. by intros e ?%elem_of_nil.
  - simpl. intros e [He | ->%list_elem_of_singleton]%elem_of_app;
      [by apply HP | done].
Qed.

Lemma build_boundary fuel g c0 node c1 c2 :
  initialize fuel g c0 node = Ok c1 →
  build fuel g c1 = Ok c2 →
  ∀ e, e ∈ connections c2 →
       isEdge g (src e) (dst e) ∧
       e = boundaryEdge g (src e) (dst e) ∧
       isMember c2 (dst e) (Graph.getData g (dst e)) = false.
Proof.
  intros Hinit Hbuild.
  eapply (steps_invariant (isEdge g) g
            (λ c, ∀ e, e ∈ connections c →
                       isEdge g (src e) (dst e) ∧
                       e = boundaryEdge g (src e) (dst e) ∧
                       isMember c (dst e) (Graph.getData g (dst e)) = false));
    [intros ???; by eapply boundary_step | by eapply build_steps |].
  apply initialize_seed in Hinit as [t ->]. simpl. by intros ? ?%elem_of_nil.
Qed.

Lemma build_segments fuel g c0 node c1 c2 :
  initialize fuel g c0 node = Ok c1 →
  build fuel g c1 = Ok c2 →
  ∀ n, n ∈ pre c2 → Element_dim (Graph.getData g n) = 2%Z → n = centerNode c2.
Proof.
  intros Hinit Hbuild.
  eapply (steps_invariant (λ _ _, True) g
            (λ c, ∀ n, n ∈ pre c → Element_dim (Graph.getData g n) = 2%Z →
                       n = centerNode c));
    [apply anchor_segment_step | by eapply build_steps |].
  apply initialize_seed in Hinit as [t ->]. simpl.
  by intros n ->%list_elem_of_singleton _.
Qed.

(** X5: after [initialize] and [build], every entry of [connections] joins
    two neighbours of the graph, carries the edge [dst]'s element shares
    with [src]'s element, and its [dst] is classified as outside the cavity
    by the condition of [expand] for the final anchor: its element does not
    contain [center] in its circle, or it is a second segment. *)
Theorem connections_lead_outside fuel g c0 node c1 c2 :
  initialize fuel g c0 node = Ok c1 →
  build fuel g c1 = Ok c2 →
  ∀ e, e ∈ connections c2 →
       dst e ∈ Graph.edges g (src e) ∧
       data e = getRelatedEdge (Graph.getData g (dst e))
                               (Graph.getData g (src e)) ∧
       (inCircle (Graph.getData g (dst e)) (center c2) = false ∨
        (dim c2 = 2%Z ∧ Element_dim (Graph.getData g (dst e)) = 2%Z ∧
         dst e ≠ centerNode c2)).
Proof.
  intros Hinit Hbuild e He.
  destruct (build_boundary _ _ _ _ _ _ Hinit Hbuild e He)
    as (Hedge & Heq & Hout).
  split; [done|]. split; [by rewrite Heq at 1|].
  destruct (inCircle (Graph.getData g (dst e)) (center c2)) eqn:Hin;
    [|by left]. right.
  destruct (decide (dim c2 = 2%Z ∧
                    Element_dim (Graph.getData g (dst e)) = 2%Z ∧
                    dst e ≠ centerNode c2)) as [|Hno]; [done|].
  assert (isMember c2 (dst e) (Graph.getData g (dst e)) = true) as Htrue
    by by apply isMember_true.
  congruence.
Qed.

Lemma stable_step E g c0 c c' :
  (dim c = 2%Z ∧ center c = center c0 ∧ centerNode c = centerNode c0 ∧
   centerElement c = centerElement c0 ∧ post c = post c0 ∧
   pre c0 `prefix_of` pre c ∧ connections c0 `prefix_of` connections c) →
  step g E c c' →
  dim c' = 2%Z ∧ center c' = center c0 ∧ centerNode c' = centerNode c0 ∧
  centerElement c' = centerElement c0 ∧ post c' = post c0 ∧
  pre c0 `prefix_of` pre c' ∧ connections c0 `prefix_of` connections c'.
Proof.
  intros (Hd & Hc & Hn & He & Hpost & Hpre & Hconn) Hstep. destruct Hstep as
    [c curr rest _ | c node next fuel c' _ _ _ Hdim _
    | c node next _ _ _ _ | c node next _ _ _]; try done.
  - repeat split; try done. simpl. unfold PreGraph.addNode.
    by apply prefix_app_r.
  - repeat split; try done. simpl. by apply prefix_app_r.
Qed.

(** X6: a cavity anchored on a segment ([dim == 2]) is never re-anchored:
    when [build()] returns, [center], [centerNode], [centerElement], [dim]
    and [post] are what they were, and [pre] and [connections] have only
    been extended at their end. *)
Theorem segment_anchor_stable fuel g c c' :
  dim c = 2%Z →
  build fuel g c = Ok c' →
  dim c' = 2%Z ∧ center c' = center c ∧ centerNode c' = centerNode c ∧
  centerElement c' = centerElement c ∧ post c' = post c ∧
  pre c `prefix_of` pre c' ∧ connections c `prefix_of` connections c'.
Proof.
  intros Hdim Hbuild.
  eapply (steps_invariant (λ _ _, True) g
            (λ c1, dim c1 = 2%Z ∧ center c1 = center c ∧
                   centerNode c1 = centerNode c ∧
                   centerElement c1 = centerElement c ∧ post c1 = post c ∧
                   pre c `prefix_of` pre c1 ∧
                   connections c `prefix_of` connections c1));
    [intros ???; by eapply stable_step | by eapply build_steps |].
  by repeat split.
Qed.

Lemma frontier_step E g c c' :
  (∀ n, n ∈ frontier c → n ∈ pre c) → step g E c c' →
  ∀ n, n ∈ frontier c' → n ∈ pre c'.
Proof.
  intros HP Hstep. destruct Hstep as
    [c curr rest Hfr | c node next fuel c' _ _ _ _ Hinit
    | c node next _ _ _ _ | c node next _ _ _]; try done.
  - simpl. intros n Hn. apply HP. rewrite Hfr. by right.
  - apply initialize_seed in Hinit as [t ->]. done.
  - simpl. unfold PreGraph.addNode.
    intros n [->|Hn]%elem_of_cons; apply elem_of_app; [right; by left|].
    left. by apply HP.
Qed.

(** X7: [expand] keeps the frontier inside [pre]: if every node waiting on
    the frontier is in [pre] before [expand(node, next)], this also holds
    when it returns, whether it pushed [next], recorded a boundary edge or
    re-anchored and rebuilt the cavity. *)
Theorem frontier_within_pre fuel g c node next c' :
  (∀ n, n ∈ frontier c → n ∈ pre c) →
  expand fuel g c node next = Ok c' →
  ∀ n, n ∈ frontier c' → n ∈ pre c'.
Proof.
  intros HP Hexp.
  eapply (steps_invariant (λ _ _, True) g
            (λ c, ∀ n, n ∈ frontier c → n ∈ pre c));
    [intros ???; by eapply frontier_step | by eapply expand_steps | done].
Qed.

(** X8: for a cavity grown from a node of a well-formed graph, [update]
    pushes the originating node at the end exactly when the node is not in
    [pre]: the bad element is queued again iff the cavity did not consume
    it. *)
Theorem update_requeues_survivor fuel g0 c0 node g c ctx :
  Graph.wf g0 → node ∈ Graph.nodes g0 →
  grow fuel g0 c0 node = Ok (g, c) →
  (update g c node ctx).2
  = (ctx ++ filter (λ n, isBad (Graph.getData g n)) (PostGraph.nodes (post c)))
    ++ (if bool_decide (node ∈ pre c) then [] else [node]).
Proof.
  intros Hwf Hnode (c1 & c2 & Hinit & Hbuild & Hpost)%grow_inv.
  destruct (update_spec g c node ctx) as (Hrem & Hadd & -> & _).
  f_equal.
  destruct (build_grown _ _ _ _ _ _ Hwf Hnode Hinit Hbuild)
    as [_ (_ & _ & Hempty)].
  destruct (computePost_spec g0 c2)
    as (g' & c' & Heq & Hp & _ & Hnodes & Hpre & _).
  rewrite Hpost in Heq. injection Heq as <- <-.
  rewrite Hempty in Hp. simpl in Hp. destruct Hwf as [Halloc _].
  assert (node ∉ PostGraph.nodes (post c)) as Hfresh.
  { rewrite Hp. intros Hin%elem_of_seq. apply Halloc in Hnode. lia. }
  rewrite Hadd, Hrem, Hnodes.
  destruct (decide (node ∈ pre c)) as [Hin|Hout].
  - rewrite (bool_decide_eq_true_2 (node ∈ pre c)) by done.
    rewrite bool_decide_eq_false_2; [done|].
    rewrite elem_of_union, elem_of_difference, !elem_of_list_to_set. tauto.
  - rewrite (bool_decide_eq_false_2 (node ∈ pre c)) by done.
    rewrite bool_decide_eq_true_2; [done|].
    rewrite elem_of_union, elem_of_difference, !elem_of_list_to_set. tauto.
Qed.
End cavity_shape_properties.

Section commit_shape_properties.
Context `{Geometry}.
Implicit Types (g : Graph.t) (c : Cavity) (n node next : GNode).

Lemma allocatesOnly_refl g : allocatesOnly g g.
Proof. by repeat split. Qed.

Lemma allocatesOnly_trans g1 g2 g3 :
  allocatesOnly g1 g2 → allocatesOnly g2 g3 → allocatesOnly g1 g3.
Proof.
  intros (Hn1 & Hle1 & Hk1) (Hn2 & Hle2 & Hk2). split; [congruence|].
  split; [lia|]. intros n Hn.
  destruct (Hk1 n Hn) as [Hd1 He1].
  destruct (Hk2 n) as [Hd2 He2]; [lia|]. split; congruence.
Qed.

Lemma createNode_allocatesOnly g e :
  allocatesOnly g (Graph.createNode g e).1.
Proof.
  split; [done|]. split; [simpl; lia|]. intros n Hn.
  unfold Graph.getData, Graph.edges. simpl.
  by rewrite !bool_decide_eq_false_2 by lia.
Qed.

Lemma keepsAllButPost_trans c1 c2 c3 :
  keepsAllButPost c1 c2 → keepsAllButPost c2 c3 → keepsAllButPost c1 c3.
Proof. unfold keepsAllButPost. intuition congruence. Qed.

Lemma computePost_step_keeps g c tuple :
  allocatesOnly g (computePost_step (g, c) tuple).1 ∧
  keepsAllButPost c (computePost_step (g, c) tuple).2 ∧
  (Graph.wf g → Graph.wf (computePost_step (g, c) tuple).1).
Proof.
  unfold computePost_step. cbv zeta.
  set (e := Element3 _ _ _).
  pose proof (createNode_allocatesOnly g e) as Halloc.
  pose proof (createNode_fresh g e) as Hwf.
  destruct (Graph.createNode g e) as [g' newNode]. simpl in *.
  split; [done|]. split; [by repeat split|]. intros Hg. by apply Hwf.
Qed.

Lemma computePost_loop_keeps l g c :
  allocatesOnly g (foldl computePost_step (g, c) l).1 ∧
  keepsAllButPost c (foldl computePost_step (g, c) l).2 ∧
  (Graph.wf g → Graph.wf (foldl computePost_step (g, c) l).1).
Proof.
  revert g c. induction l as [|tuple l IH]; intros g c; cbn [foldl].
  - split; [apply allocatesOnly_refl|]. split; [by repeat split|done].
  - destruct (computePost_step_keeps g c tuple) as (Ha1 & Hk1 & Hw1).
    destruct (computePost_step (g, c) tuple) as [g1 c1].
    destruct (IH g1 c1) as (Ha & Hk & Hw). simpl in *.
    split; [by eapply allocatesOnly_trans|].
    split; [by eapply keepsAllButPost_trans | auto].
Qed.

Lemma computePost_segment_keeps g c :
  allocatesOnly g (computePost_segment g c).1 ∧
  keepsAllButPost c (computePost_segment g c).2 ∧
  (Graph.wf g → Graph.wf (computePost_segment g c).1).
Proof.
  unfold computePost_segment. case_bool_decide; cbv zeta.
  - set (e1 := Element2 _ _). set (e2 := Element2 _ _).
    pose proof (createNode_allocatesOnly g e1) as Ha1.
    pose proof (createNode_fresh g e1) as Hw1.
    destruct (Graph.createNode g e1) as [g1 n1].
    pose proof (createNode_allocatesOnly g1 e2) as Ha2.
    pose proof (createNode_fresh g1 e2) as Hw2.
    destruct (Graph.createNode g1 e2) as [g2 n2]. simpl in *.
    split; [by eapply allocatesOnly_trans|]. split; [by repeat split|].
    intros Hg. by apply Hw2, Hw1.
  - simpl. split; [apply allocatesOnly_refl|]. split; [by repeat split|done].
Qed.

(** X9: [computePost()] only allocates. The members of the graph are the
    same before and after, the element and the edges of every node that
    existed before are untouched, a well-formed graph stays well formed, and
    of the cavity only [post] changes: [center], [centerNode], [frontier],
    [pre], [connections], [centerElement] and [dim] are kept. *)
Theorem computePost_only_allocates g c :
  allocatesOnly g (computePost g c).1 ∧
  keepsAllButPost c (computePost g c).2 ∧
  (Graph.wf g → Graph.wf (computePost g c).1).
Proof.
  unfold computePost.
  destruct (computePost_segment_keeps g c) as (Ha1 & Hk1 & Hw1).
  destruct (computePost_segment g c) as [g1 c1].
  destruct (computePost_loop_keeps (connections c) g1 c1) as (Ha & Hk & Hw).
  simpl in *. split; [by eapply allocatesOnly_trans|].
  split; [by eapply keepsAllButPost_trans | auto].
Qed.

Lemma crossLink_fold_edges g newNode newElement l (p : PostGraph.t) e :
  e ∈ PostGraph.edges
        (foldl (λ p node,
                  let element := Graph.getData g node in
                  if isRelated element newElement then
                    PostGraph.addEdge p newNode node
                      (getRelatedEdge newElement element)
                  else p) p l) →
  e ∈ PostGraph.edges p ∨ (src e = newNode ∧ dst e ∈ l).
Proof.
  revert p. induction l as [|x l IH]; intros p; cbn [foldl]; [by left|].
  intros [He | [Hs Hd]]%IH; [|right; split; [done | by right]].
  cbv zeta in He. destruct (isRelated _ _); [|by left].
  simpl in He. apply elem_of_app in He as [He | ->%list_elem_of_singleton];
    [by left|]. right. split; [done | by left].
Qed.

Lemma crossLink_edges g newNode newElement (p : PostGraph.t) e :
  e ∈ PostGraph.edges (crossLink g newNode newElement p) →
  e ∈ PostGraph.edges p ∨ (src e = newNode ∧ dst e ∈ PostGraph.nodes p).
Proof. apply crossLink_fold_edges. Qed.

Lemma computePost_step_linked c0 lo g c tuple :
  postEdgesLinked c0 lo g c → pre c = pre c0 → tuple ∈ connections c0 →
  lo ≤ Graph.nextId g →
  postEdgesLinked c0 lo (computePost_step (g, c) tuple).1
                        (computePost_step (g, c) tuple).2.
Proof.
  intros [Hnodes Hedges] Hpre Htuple Hlo. unfold computePost_step. cbv zeta.
  simpl. split; simpl; rewrite crossLink_nodes; simpl.
  - intros n [Hn | ->%list_elem_of_singleton]%elem_of_app; [|lia].
    apply Hnodes in Hn. lia.
  - intros e [He | [Hs Hd]]%crossLink_edges.
    + simpl in He. apply elem_of_app in He as [He | ->%list_elem_of_singleton].
      * destruct (Hedges e He) as (Hsrc & Hge & Hdst).
        split; [apply elem_of_app; by left|]. split; [done|].
        destruct Hdst as [[Hd Hlt] | Hother]; [|by right]. left.
        split; [apply elem_of_app; by left | done].
      * simpl. split; [apply elem_of_app; right; by left|]. split; [done|].
        right. exists tuple. split; [done|]. unfold otherEnd. by rewrite Hpre.
    + simpl in Hd. split; [rewrite Hs; apply elem_of_app; right; by left|].
      split; [lia|]. left. split; [apply elem_of_app; by left|].
      apply Hnodes in Hd. lia.
Qed.

Lemma computePost_loop_linked c0 lo l g c :
  postEdgesLinked c0 lo g c → pre c = pre c0 →
  (∀ t, t ∈ l → t ∈ connections c0) → lo ≤ Graph.nextId g →
  postEdgesLinked c0 lo (foldl computePost_step (g, c) l).1
                        (foldl computePost_step (g, c) l).2.
Proof.
  revert g c. induction l as [|tuple l IH]; intros g c Hinv Hpre Hl Hlo;
    cbn [foldl]; [done|].
  pose proof (computePost_step_linked c0 lo g c tuple Hinv Hpre) as Hstep.
  destruct (computePost_step_keeps g c tuple) as ((_ & Hle & _) & Hk & _).
  destruct (computePost_step (g, c) tuple) as [g1 c1]. simpl in *.
  apply IH.
  - apply Hstep; [apply Hl; by left | done].
  - destruct Hk as (_ & _ & _ & -> & _). done.
  - intros t Ht. apply Hl. by right.
  - lia.
Qed.

Lemma computePost_segment_linked g c :
  post c = PostGraph.mk [] [] →
  postEdgesLinked c (Graph.nextId g + anchorNodes c)
                  (computePost_segment g c).1 (computePost_segment g c).2 ∧
  pre (computePost_segment g c).2 = pre c ∧
  Graph.nextId g + anchorNodes c ≤ Graph.nextId (computePost_segment g c).1.
Proof.
  intros Hempty.
  destruct (computePost_segment_spec g c)
    as (g1 & c1 & Heq & Hp1 & Hn1 & _ & Hpre1 & _ & Hconn1).
  assert (PostGraph.edges (post c1) = []) as He1.
  { revert Heq. unfold computePost_segment.
    case_bool_decide; intros [= <- <-]; simpl; by rewrite Hempty. }
  rewrite Heq. simpl. split; [|split; [done|lia]]. split.
  - rewrite Hp1, Hempty. simpl. intros n Hn%elem_of_seq. lia.
  - rewrite He1. by intros e ?%elem_of_nil.
Qed.

(** X10: for a cavity whose [post] is empty, as [initialize] and [build]
    leave it, every edge [computePost()] records starts at a node it created
    for a boundary connection (never at one of the two halves of a split
    segment) and ends either at a node created earlier or at the node
    [other] of a boundary connection; every node of [post] is allocated. *)
Theorem post_edges_linked g c :
  post c = PostGraph.mk [] [] →
  postEdgesLinked c (Graph.nextId g + anchorNodes c)
                  (computePost g c).1 (computePost g c).2.
Proof.
  intros Hempty. unfold computePost.
  destruct (computePost_segment_linked g c Hempty) as (Hlinked & Hpre & Hlo).
  destruct (computePost_segment g c) as [g1 c1]. simpl in *.
  by apply computePost_loop_linked.
Qed.
Lemma computePost_facts g c :
  post c = PostGraph.mk [] [] →
  allocatesOnly g (computePost g c).1 ∧
  keepsAllButPost c (computePost g c).2 ∧
  (Graph.wf g → Graph.wf (computePost g c).1) ∧
  postEdgesLinked c (Graph.nextId g + anchorNodes c)
                  (computePost g c).1 (computePost g c).2.
Proof.
  intros Hempty. unfold computePost.
  destruct (computePost_segment_keeps g c) as (Ha1 & Hk1 & Hw1).
  destruct (computePost_segment_linked g c Hempty) as (Hlinked & Hpre & Hlo).
  destruct (computePost_segment g c) as [g1 c1].
  destruct (computePost_loop_keeps (connections c) g1 c1) as (Ha & Hk & Hw).
  simpl in *. split; [by eapply allocatesOnly_trans|].
  split; [by eapply keepsAllButPost_trans|]. split; [auto|].
  by apply computePost_loop_linked.
Qed.

Lemma remove_fold_adj l g a m :
  m ∈ Graph.adj (foldl Graph.removeNode g l) a →
  m ∈ Graph.adj g a ∧ (m ∉ l) ∧ (a ∉ l).
Proof.
  revert g. induction l as [|x l IH]; intros g; cbn [foldl].
  - intros Hm. split; [done|]. split; apply not_elem_of_nil.
  - intros (Hm & Hml & Hal)%IH. simpl in Hm.
    case_bool_decide as Hax; [by apply elem_of_nil in Hm|].
    apply list_elem_of_filter in Hm as [Hmx Hm].
    split; [done|]. rewrite !not_elem_of_cons. done.
Qed.

Lemma remove_fold_nextId l g :
  Graph.nextId (foldl Graph.removeNode g l) = Graph.nextId g.
Proof. revert g. induction l as [|x l IH]; intros g; simpl; [done|by rewrite IH]. Qed.

Lemma add_fold_nextId l g ctx :
  Graph.nextId (foldl update_add_step (g, ctx) l).1 = Graph.nextId g.
Proof.
  revert g ctx. induction l as [|x l IH]; intros g ctx; cbn [foldl]; [done|].
  cbn [update_add_step]. by rewrite IH.
Qed.

Lemma edges_fold_inv (l : list EdgeTuple) g a m :
  m ∈ Graph.adj (foldl (λ g edge, Graph.addEdge g (src edge) (dst edge)) g l) a →
  m ∈ Graph.adj g a ∨
  ∃ e, e ∈ l ∧ ((a = src e ∧ m = dst e) ∨ (a = dst e ∧ m = src e)).
Proof.
  revert g. induction l as [|x l IH]; intros g; cbn [foldl]; [by left|].
  intros [Hm | (e & He & Hcase)]%IH.
  - apply addEdge_adj in Hm as [Hm | Hcase]; [by left|]. right. exists x.
    split; [by left | done].
  - right. exists e. split; [by right | done].
Qed.

Lemma edges_fold_nextId (l : list EdgeTuple) g :
  Graph.nextId (foldl (λ g edge, Graph.addEdge g (src edge) (dst edge)) g l)
  = Graph.nextId g.
Proof. revert g. induction l as [|x l IH]; intros g; simpl; [done|by rewrite IH]. Qed.

(** Where the edges of the graph come from after [update]. *)
Lemma update_adj g c node ctx a m :
  m ∈ Graph.adj (update g c node ctx).1 a →
  (m ∈ Graph.adj g a ∧ (m ∉ pre c) ∧ (a ∉ pre c)) ∨
  ∃ e, e ∈ PostGraph.edges (post c) ∧
       ((a = src e ∧ m = dst e) ∨ (a = dst e ∧ m = src e)).
Proof.
  unfold update, update_add.
  pose proof (update_add_spec (PostGraph.nodes (post c)) (update_remove g c) ctx)
    as Hadd. simpl in Hadd.
  destruct (foldl update_add_step (update_remove g c, ctx) _) as [g2 ctx2].
  destruct Hadd as (_ & _ & Hadj2 & _). simpl in *. unfold update_edges.
  intros [Hm | Hedge]%edges_fold_inv; [|by right]. left.
  rewrite Hadj2 in Hm. by apply remove_fold_adj in Hm.
Qed.

Lemma update_nextId g c node ctx :
  Graph.nextId (update g c node ctx).1 = Graph.nextId g.
Proof.
  unfold update, update_add.
  pose proof (add_fold_nextId (PostGraph.nodes (post c)) (update_remove g c) ctx)
    as Hadd.
  destruct (foldl update_add_step (update_remove g c, ctx) _) as [g2 ctx2].
  simpl in *. unfold update_edges. rewrite edges_fold_nextId, Hadd.
  apply remove_fold_nextId.
Qed.

(** X11: the whole iteration keeps the graph well formed. When every element
    of the graph contains its own circumcenter in its circle, and the cavity
    is grown by [initialize], [build] and [computePost] from a node of a
    well-formed graph, then after [update] every member is allocated and
    every edge ends at a member; the nodes of [pre] are no longer members and
    no edge refers to them (no dangling edge is left behind). *)
Theorem commit_keeps_graph_wf fuel g0 c0 node g c ctx :
  Graph.wf g0 → node ∈ Graph.nodes g0 →
  (∀ n, n ∈ Graph.nodes g0 →
        inCircle (Graph.getData g0 n) (getCenter (Graph.getData g0 n)) = true) →
  grow fuel g0 c0 node = Ok (g, c) →
  Graph.wf (update g c node ctx).1 ∧
  ∀ n, n ∈ pre c →
       (n ∉ Graph.nodes (update g c node ctx).1) ∧
       ∀ a, n ∉ Graph.edges (update g c node ctx).1 a.
Proof.
  intros Hwf Hnode Hself (c1 & c2 & Hinit & Hbuild & Hpost)%grow_inv.
  destruct (build_grown _ _ _ _ _ _ Hwf Hnode Hinit Hbuild)
    as [_ (Hnd & Hin & Hempty)].
  pose proof (build_keeps_anchored _ _ _ _ _ _ Hinit Hbuild)
    as (Hce & Hcen & Hdim & Hcin).
  destruct (build_in_circle _ _ _ _ _ _ Hinit Hbuild) as [_ Hcirc].
  pose proof (build_boundary _ _ _ _ _ _ Hinit Hbuild) as Hbnd.
  pose proof (build_segments _ _ _ _ _ _ Hinit Hbuild) as Hseg.
  destruct (computePost_facts g0 c2 Hempty)
    as ((Hnodes & Hnext & _) & Hkeep & Hwfg & Hpostnodes & Hlinked).
  rewrite Hpost in Hnodes, Hnext, Hkeep, Hwfg, Hpostnodes, Hlinked.
  simpl in *. destruct Hkeep as (_ & _ & _ & Hpre & _).
  specialize (Hwfg Hwf). destruct Hwf as [Halloc0 Hadj0].
  destruct Hwfg as [Halloc Hadj].
  (* the far end of a boundary entry is a member outside [pre] *)
  assert (∀ t, t ∈ connections c2 →
               otherEnd c2 t ∈ Graph.nodes g0 ∧ otherEnd c2 t ∉ pre c2) as Hother.
  { intros t Ht. destruct (Hbnd t Ht) as (Hedge & _ & Hout).
    assert (dst t ∉ pre c2) as Hnot.
    { intros Hp. destruct (Hcirc _ Hp) as [Heq | Hic].
      - assert (isMember c2 (dst t) (Graph.getData g0 (dst t)) = true);
          [|congruence].
        apply isMember_true. split.
        + rewrite Heq, Hcen, Hce. apply Hself. by apply Hin.
        + intros (_ & _ & Hne). done.
      - assert (isMember c2 (dst t) (Graph.getData g0 (dst t)) = true);
          [|congruence].
        apply isMember_true. split; [done|].
        intros (_ & Hd2 & Hne). apply Hne. by apply Hseg. }
    unfold otherEnd, PreGraph.containsNode.
    rewrite bool_decide_eq_false_2 by done. split; [|done].
    by eapply Hadj0. }
  destruct (update_spec g c node ctx) as (Hrem & Hadd & _ & _).
  assert (∀ n, n ∈ PostGraph.nodes (post c) → n ∉ pre c) as Hfresh.
  { intros n Hn Hp. rewrite Hpre in Hp. apply Hin, Halloc0 in Hp.
    destruct (computePost_spec g0 c2) as (g' & c' & Heq & Hp' & _).
    rewrite Hpost in Heq. injection Heq as <- <-.
    rewrite Hp', Hempty in Hn. simpl in Hn. apply elem_of_seq in Hn. lia. }
  assert (Graph.wf (update g c node ctx).1) as Hwf'.
  { split.
    - intros n. rewrite update_nextId, Hadd, Hrem.
      intros [Hn%elem_of_list_to_set | [Hn _]%elem_of_difference]%elem_of_union;
        [by apply Hpostnodes | by apply Halloc].
    - intros a m [(Hm & Hmp & _) | (e & He & Hcase)]%update_adj;
        rewrite Hadd, Hrem.
      + apply elem_of_union_r, elem_of_difference. split; [by eapply Hadj|].
        by rewrite elem_of_list_to_set.
      + destruct (Hlinked e He) as (Hsrc & _ & Hdst).
        destruct Hcase as [[_ ->] | [_ ->]];
          [|by apply elem_of_union_l, elem_of_list_to_set].
        destruct Hdst as [[Hd _] | (t & Ht & ->)];
          [by apply elem_of_union_l, elem_of_list_to_set|].
        destruct (Hother t Ht) as [Hmem Hnot].
        apply elem_of_union_r, elem_of_difference. rewrite Hnodes.
        split; [done|]. by rewrite elem_of_list_to_set, Hpre. }
  split; [done|]. intros n Hn.
  assert (n ∉ Graph.nodes (update g c node ctx).1) as Hgone.
  { rewrite Hadd, Hrem.
    intros [Hp%elem_of_list_to_set | [_ Hp]%elem_of_difference]%elem_of_union.
    - by apply (Hfresh n).
    - apply Hp. by apply elem_of_list_to_set. }
  split; [done|]. intros a Ha. apply Hgone. destruct Hwf' as [_ Hadj'].
  by eapply Hadj'.
Qed.
End commit_shape_properties.

(** * Properties of the benchmark start-up *)
Section start_up_properties.
Import DistBench.
Local Open Scope Z_scope.

Lemma string_app_cons (x : ascii) (a b : string) :
  (String x a ++ b)%string = String x (a ++ b).
Proof. reflexivity. Qed.

Lemma string_app_nil_l (b : string) : ("" ++ b)%string = b.
Proof. reflexivity. Qed.

Lemma string_app_assoc (a b c : string) :
  ((a ++ b) ++ c)%string = (a ++ b ++ c)%string.
Proof.
  induction a as [|x a IH]; [by rewrite !string_app_nil_l|].
  by rewrite !string_app_cons, IH.
Qed.

Lemma string_app_nil_r (a : string) : (a ++ "")%string = a.
Proof.
  induction a as [|x a IH]; [done|]. by rewrite string_app_cons, IH.
Qed.

Lemma string_length_app (a b : string) :
  String.length (a ++ b) = (String.length a + String.length b)%nat.
Proof.
  induction a as [|x a IH]; [done|]. rewrite string_app_cons. simpl.
  by rewrite IH.
Qed.

Lemma cmdout_from (argv : list string) (m k : nat) (acc : string) :
  (k + m)%nat = length argv →
  foldl (cmdout_step (Z.of_nat (length argv)) argv) acc (seq k m)
  = (acc ++ String.concat " " (drop k argv))%string.
Proof.
  revert k acc. induction m as [|m IH]; intros k acc Hlen; cbn [seq foldl].
  - rewrite drop_ge by lia. simpl. by rewrite string_app_nil_r.
  - destruct (drop k argv) as [|x rest] eqn:Hdrop.
    { apply (f_equal length) in Hdrop. rewrite length_drop in Hdrop.
      simpl in Hdrop. lia. }
    assert (nth k argv ""%string = x) as Hx.
    { rewrite <- (take_drop k argv) at 1. rewrite Hdrop.
      rewrite app_nth2 by (rewrite length_take; lia).
      rewrite length_take. by replace (k - k `min` length argv)%nat with 0%nat by lia. }
    assert (drop (S k) argv = rest) as Hrest.
    { replace (S k) with (k + 1)%nat by lia.
      by rewrite <- drop_drop, Hdrop. }
    rewrite IH by lia. rewrite Hrest. unfold cmdout_step. rewrite Hx.
    destruct m as [|m].
    + rewrite bool_decide_eq_false_2 by lia.
      assert (rest = []) as ->.
      { apply length_zero_iff_nil. rewrite <- Hrest, length_drop. lia. }
      simpl. by rewrite string_app_nil_r.
    + rewrite bool_decide_eq_true_2 by lia.
      destruct rest as [|y rest].
      { apply (f_equal length) in Hrest. rewrite length_drop in Hrest.
        simpl in Hrest. lia. }
      cbn [String.concat]. by rewrite !string_app_assoc.
Qed.

(** X12: the command line [DistBenchStart] reports is the arguments joined
    by single blanks, with no blank after the last one; with no argument
    (or a non-positive [argc]) it is empty, and its length is the sum of the
    lengths of the arguments plus one blank between neighbours. *)
Theorem commandLine_joins (argc : Z) (argv : list string) :
  (argc ≤ 0 → commandLine argc argv = ""%string) ∧
  (Z.of_nat (length argv) = argc →
   commandLine argc argv = String.concat " " argv ∧
   String.length (commandLine argc argv)
   = (foldr (λ a n, String.length a + n) 0 argv + (length argv - 1))%nat).
Proof.
  split.
  - intros Hle. unfold commandLine. by replace (Z.to_nat argc) with 0%nat by lia.
  - intros <-. assert (commandLine (Z.of_nat (length argv)) argv
                       = String.concat " " argv) as Heq.
    { unfold commandLine. rewrite Nat2Z.id.
      by rewrite (cmdout_from argv (length argv) 0 ""). }
    split; [done|]. rewrite Heq. clear Heq.
    induction argv as [|x argv IH]; [done|].
    destruct argv as [|y argv]; [simpl; lia|].
    cbn [String.concat foldr length] in *.
    rewrite !string_length_app, IH. simpl. lia.
Qed.

(** *** heteroSetup *)

Implicit Types (h : Host) (st : Setup) (f : string → Z → Z).

Lemma string_get_Some (s : string) (n : nat) :
  is_Some (String.get n s) ↔ (n < String.length s)%nat.
Proof.
  revert n. induction s as [|x s IH]; intros n; simpl.
  - split; [by intros [? ?] | lia].
  - destruct n as [|n]; [split; [lia | eauto]|]. rewrite IH. lia.
Qed.

Lemma c_str_at_Some (s : string) (k : Z) :
  0 ≤ k → is_Some (c_str_at s k) ↔ k ≤ Z.of_nat (String.length s).
Proof.
  intros Hk. unfold c_str_at.
  destruct (Z.ltb_spec k (Z.of_nat (String.length s))) as [Hlt|Hge].
  - rewrite string_get_Some. lia.
  - destruct (Z.eqb_spec k (Z.of_nat (String.length s))) as [->|Hne].
    + split; [lia | eauto].
    + split; [by intros [? ?] | lia].
Qed.

Lemma scale_loop_entries h nn ids sf sf' :
  scale_loop h nn ids sf = Some sf' →
  ∃ new, sf' = sf ++ new ∧ length new = length ids ∧
         ∀ j i, ids !! j = Some i →
                ∃ ch, c_str_at (personality_set h) (Z.of_nat i mod nn) = Some ch ∧
                      new !! j = Some (if bool_decide (ch = "c"%char)
                                       then scalecpu h else scalegpu h).
Proof.
  revert sf. induction ids as [|i ids IH]; intros sf; simpl.
  - intros [= <-]. exists []. rewrite app_nil_r. split; [done|].
    split; [done|]. intros j i Hj. by rewrite lookup_nil in Hj.
  - destruct (c_str_at _ _) as [ch|] eqn:Hch; [|done]. simpl.
    intros (new & -> & Hlen & Hall)%IH.
    eexists (_ :: new). rewrite <- app_assoc. split; [done|].
    split; [simpl; by rewrite Hlen|].
    intros [|j] i'; simpl.
    + intros [= <-]. by exists ch.
    + apply Hall.
Qed.

Lemma c_str_at_inv (s : string) (k : Z) (ch : ascii) :
  0 ≤ k → c_str_at s k = Some ch →
  (k < Z.of_nat (String.length s) ∧ String.get (Z.to_nat k) s = Some ch) ∨
  (k = Z.of_nat (String.length s) ∧ ch = Ascii.zero).
Proof.
  intros Hk. unfold c_str_at.
  destruct (Z.ltb_spec k (Z.of_nat (String.length s))) as [Hlt|Hge];
    [by left|].
  destruct (Z.eqb_spec k (Z.of_nat (String.length s))) as [->|Hne]; [|done].
  intros [= <-]. by right.
Qed.

Lemma scale_loop_defined h nn ids sf :
  0 < nn →
  is_Some (scale_loop h nn ids sf) ↔
  Forall (λ i, Z.of_nat i mod nn ≤ Z.of_nat (String.length (personality_set h)))
         ids.
Proof.
  intros Hnn. revert sf. induction ids as [|i ids IH]; intros sf; simpl.
  - split; [constructor | eauto].
  - rewrite Forall_cons.
    rewrite <- (c_str_at_Some (personality_set h) (Z.of_nat i mod nn))
      by (apply Z.mod_pos_bound; lia).
    destruct (c_str_at _ _) as [ch|]; simpl.
    + rewrite IH. split; [by eauto | by intros [_ ?]].
    + split; [by intros [? ?] | by intros [[? ?] _]].
Qed.

Lemma indices_in_bounds (nn n len : Z) :
  0 < nn → 0 ≤ n → 0 ≤ len →
  Forall (λ i, Z.of_nat i mod nn ≤ len) (seq 0 (Z.to_nat n)) ↔
  Z.min nn n ≤ len + 1.
Proof.
  intros Hnn Hn Hlen. rewrite Forall_forall. split.
  - intros Hall. destruct (decide (Z.min nn n ≤ 0)) as [|Hpos]; [lia|].
    specialize (Hall (Z.to_nat (Z.min nn n - 1))).
    rewrite Z2Nat.id in Hall by lia.
    rewrite Z.mod_small in Hall by lia.
    assert (Z.min nn n - 1 ≤ len); [|lia].
    apply Hall, elem_of_seq. lia.
  - intros Hmin i Hi%elem_of_seq.
    pose proof (Z.mod_pos_bound (Z.of_nat i) nn Hnn) as [_ Hlt].
    pose proof (Z.mod_le (Z.of_nat i) nn) as Hle. lia.
Qed.
(** What the branches of [heteroSetup] return. *)
Lemma heteroSetup_inv f h st st' :
  heteroSetup f h st = Some st' →
  let nn := to_unsigned (defaulted h st) in
  let len := Z.of_nat (String.length (personality_set h)) in
  nn ≠ 0 ∧ num_nodes st' = defaulted h st ∧
  ((len ≠ Num h / nn ∧ personality st' = personality st ∧
    gpudevice st' = gpudevice st ∧ scaleFactor st' = scaleFactor st) ∨
   (len = Num h / nn ∧ len ≠ 0 ∧
    ∃ ch, c_str_at (personality_set h) (my_host_id h mod (Num h / nn)) = Some ch ∧
          personality st' = personalityOf ch ∧
          gpudevice st'
          = (if bool_decide (personalityOf ch = GPU_CUDA) && (gpudevice st =? -1)
             then f (personality_set h) (defaulted h st) else gpudevice st) ∧
          ((scaling h = false ∧ scaleFactor st' = scaleFactor st) ∨
           (scaling h = true ∧
            scale_loop h nn (seq 0 (Z.to_nat (Num h))) (scaleFactor st)
            = Some (scaleFactor st'))))).
Proof.
  unfold heteroSetup. fold (defaulted h st). cbv zeta.
  destruct (Z.eqb_spec (to_unsigned (defaulted h st)) 0) as [|Hnn]; [done|].
  destruct (Z.eqb_spec (Z.of_nat (String.length (personality_set h)))
              (Num h / to_unsigned (defaulted h st))) as [Hlen|Hlen].
  - destruct (Z.eqb_spec (Num h / to_unsigned (defaulted h st)) 0)
      as [|Hper]; [done|].
    destruct (c_str_at _ _) as [ch|] eqn:Hch; [|done]. simpl.
    fold (scaling h). destruct (scaling h) eqn:Hscale.
    + destruct (scale_loop _ _ _ _) as [sf|] eqn:Hloop; [|done]. simpl.
      intros [= <-]. simpl. split; [done|]. split; [done|]. right.
      split; [done|]. split; [lia|]. exists ch. eauto 10.
    + intros [= <-]. simpl. split; [done|]. split; [done|]. right.
      split; [done|]. split; [lia|]. exists ch. eauto 10.
  - intros [= <-]. simpl. split; [done|]. split; [done|]. by left.
Qed.

(** X13: [heteroSetup] never drops or rewrites what [scaleFactor] holds.
    When [pset] has the length [net.Num / num_nodes] and [scalecpu] or
    [scalegpu] exceeds 1, it appends exactly [net.Num] entries, and entry
    [i] is [scalecpu] if the character of [pset] at [i % num_nodes] is ['c']
    and [scalegpu] otherwise, also when that position is the terminating
    zero. In every other case it appends nothing. *)
Theorem heteroSetup_scaleFactor f h st st' :
  heteroSetup f h st = Some st' →
  let nn := to_unsigned (num_nodes st') in
  let len := Z.of_nat (String.length (personality_set h)) in
  ∃ new,
    scaleFactor st' = scaleFactor st ++ new ∧
    (len = Num h / nn → 1 < scalecpu h ∨ 1 < scalegpu h →
     length new = Z.to_nat (Num h) ∧
     ∀ i, (i < Z.to_nat (Num h))%nat →
          let k := Z.of_nat i mod nn in
          k ≤ len ∧
          (k < len →
           ∃ ch, String.get (Z.to_nat k) (personality_set h) = Some ch ∧
                 new !! i = Some (if bool_decide (ch = "c"%char)
                                  then scalecpu h else scalegpu h)) ∧
          (k = len → new !! i = Some (scalegpu h))) ∧
    (len ≠ Num h / nn ∨ (scalecpu h ≤ 1 ∧ scalegpu h ≤ 1) → new = []).
Proof.
  intros (Hnn & -> & [(Hlen & _ & _ & Hsf)
                     | (Hlen & _ & ch & _ & _ & _ & Hscale)])%heteroSetup_inv
    nn len; subst nn len.
  - exists []. rewrite app_nil_r. split; [done|]. split; [done|]. done.
  - destruct Hscale as [[Hoff Hsf] | [Hon Hloop]].
    + exists []. rewrite app_nil_r. split; [done|]. split; [|done].
      intros _ Hgt. unfold scaling in Hoff.
      apply orb_false_iff in Hoff as [?%Z.ltb_ge ?%Z.ltb_ge]. lia.
    + apply scale_loop_entries in Hloop as (new & Hsf & Hn & Hall).
      exists new. split; [done|]. rewrite length_seq in Hn. split.
      * intros _ _. split; [done|]. intros i Hi k. subst k.
        destruct (Hall i i) as (c & Hc & Hnew);
          [by apply lookup_seq_lt|].
        assert (0 ≤ Z.of_nat i mod to_unsigned (defaulted h st)) as Hk.
        { apply Z.mod_pos_bound.
          assert (0 ≤ to_unsigned (defaulted h st))
            by (unfold to_unsigned; apply Z.mod_pos_bound; lia).
          lia. }
        apply c_str_at_inv in Hc as [[Hlt Hget] | [Heq ->]]; [| |done].
        -- split; [lia|]. split; [|lia]. intros _. by exists c.
        -- split; [lia|]. split; [lia|]. intros _. by rewrite Hnew.
      * intros [Hne | [Hc Hg]]; [done|]. unfold scaling in Hon.
        apply orb_true_iff in Hon as [?%Z.ltb_lt | ?%Z.ltb_lt]; lia.
Qed.

(** X14: what [heteroSetup] decides from the host's character of [pset].
    When [pset] has the length [net.Num / num_nodes], the character at
    [my_host_id % length] decides: ['g'] makes the host [GPU_CUDA], and
    [gpudevice] becomes [get_gpu_device_id(pset, num_nodes)] only if it was
    -1; ['o'] makes it [GPU_OPENCL] and any other character [CPU], and then
    [gpudevice] is not touched. A [pset] of another length leaves
    [personality], [gpudevice] and [scaleFactor] as they were. A device that
    was chosen ([gpudevice != -1]) is never replaced. *)
Theorem heteroSetup_gpudevice f h st st' :
  0 ≤ my_host_id h →
  heteroSetup f h st = Some st' →
  let nn := to_unsigned (num_nodes st') in
  let len := Z.of_nat (String.length (personality_set h)) in
  (len ≠ Num h / nn →
   personality st' = personality st ∧ gpudevice st' = gpudevice st ∧
   scaleFactor st' = scaleFactor st) ∧
  (len = Num h / nn →
   ∃ ch, String.get (Z.to_nat (my_host_id h mod len)) (personality_set h)
         = Some ch ∧
         (ch = "g"%char →
          personality st' = GPU_CUDA ∧
          gpudevice st' = (if gpudevice st =? -1
                           then f (personality_set h) (num_nodes st')
                           else gpudevice st)) ∧
         (ch = "o"%char →
          personality st' = GPU_OPENCL ∧ gpudevice st' = gpudevice st) ∧
         (ch ≠ "g"%char → ch ≠ "o"%char →
          personality st' = CPU ∧ gpudevice st' = gpudevice st)) ∧
  (gpudevice st ≠ -1 → gpudevice st' = gpudevice st).
Proof.
  intros Hid (_ & Hnodes & [(Hlen & Hp & Hg & Hsf)
                           | (Hlen & Hlen0 & ch & Hch & Hp & Hg & _)])
    %heteroSetup_inv nn len; subst nn len; rewrite Hnodes.
  - split; [done|]. split; [done|]. done.
  - split; [done|]. split.
    + intros _. exists ch. rewrite <- Hlen in Hch.
      assert (0 < Z.of_nat (String.length (personality_set h))) as Hpos by lia.
      pose proof (Z.mod_pos_bound (my_host_id h) _ Hpos) as Hidx.
      apply c_str_at_inv in Hch as [[_ Hget] | [Heq _]]; [|lia|lia].
      split; [done|]. rewrite Hp, Hg. unfold personalityOf.
      split; [|split].
      * intros ->. by rewrite !bool_decide_eq_true_2.
      * intros ->. rewrite (bool_decide_eq_false_2 ("o"%char = "g"%char)) by done.
        rewrite (bool_decide_eq_true_2 ("o"%char = "o"%char)) by done.
        by rewrite (bool_decide_eq_false_2 (GPU_OPENCL = GPU_CUDA)).
      * intros Hg' Ho'. by rewrite !bool_decide_eq_false_2 by done.
    + intros Hset. rewrite Hg.
      destruct (Z.eqb_spec (gpudevice st) (-1)); [done|].
      by rewrite andb_false_r.
Qed.

(** X15: when [heteroSetup] has defined behaviour. With a non-negative host
    id and host count it returns iff [num_nodes] (after defaulting, as an
    unsigned) is not zero and, in case [pset] has the expected length
    [net.Num / num_nodes], that length is not zero and, with scaling switched
    on, the smaller of [num_nodes] and [net.Num] is at most the length plus
    one: the scale loop reads [pset] at [i % num_nodes], which may lie past
    the end of a string of [net.Num / num_nodes] characters. *)
Theorem heteroSetup_defined f h st :
  0 ≤ my_host_id h → 0 ≤ Num h →
  let nn := to_unsigned (defaulted h st) in
  let len := Z.of_nat (String.length (personality_set h)) in
  is_Some (heteroSetup f h st) ↔
  nn ≠ 0 ∧
  (len = Num h / nn →
   len ≠ 0 ∧ (scaling h = true → Z.min nn (Num h) ≤ len + 1)).
Proof.
  intros Hid Hnum nn len. subst nn len.
  assert (0 ≤ to_unsigned (defaulted h st)) as Hnn0
    by (unfold to_unsigned; apply Z.mod_pos_bound; lia).
  unfold heteroSetup. fold (defaulted h st). cbv zeta.
  destruct (Z.eqb_spec (to_unsigned (defaulted h st)) 0) as [Hz|Hnn].
  { split; [by intros [? ?] | by intros [? _]]. }
  destruct (Z.eqb_spec (Z.of_nat (String.length (personality_set h)))
              (Num h / to_unsigned (defaulted h st))) as [Hlen|Hlen];
    [|split; [done | eauto]].
  destruct (Z.eqb_spec (Num h / to_unsigned (defaulted h st)) 0) as [Hper|Hper].
  { split; [by intros [? ?] | intros [_ Hok]; destruct (Hok Hlen); lia]. }
  assert (is_Some (c_str_at (personality_set h)
                     (my_host_id h mod (Num h / to_unsigned (defaulted h st)))))
    as [ch Hch].
  { assert (0 < Num h / to_unsigned (defaulted h st)) as Hpos by lia.
    pose proof (Z.mod_pos_bound (my_host_id h) _ Hpos).
    apply c_str_at_Some; lia. }
  rewrite Hch. simpl. fold (scaling h). destruct (scaling h) eqn:Hscale.
  - assert (is_Some (scale_loop h (to_unsigned (defaulted h st))
                       (seq 0 (Z.to_nat (Num h))) (scaleFactor st))
            ↔ Z.min (to_unsigned (defaulted h st)) (Num h)
              ≤ Z.of_nat (String.length (personality_set h)) + 1) as Hloop.
    { rewrite scale_loop_defined by lia. apply indices_in_bounds; lia. }
    destruct (scale_loop _ _ _ _) as [sf|]; simpl.
    + split; [|eauto]. intros _. split; [done|]. intros _.
      split; [lia|]. intros _. apply Hloop. eauto.
    + split; [by intros [? ?]|]. intros [_ Hok].
      destruct (Hok Hlen) as [_ Hmin]. apply Hloop in Hmin; [|done].
      by destruct Hmin.
  - split; [|eauto]. intros _. split; [done|]. intros _. split; [lia|done].
Qed.

(** X16: with [num_nodes] left at its default of -1 and a one-character
    [pset] (the default is "c"), scaling switched on reads [pset] at the host
    number: host 0 gets the scale of the character, a second host always
    gets [scalegpu] (the loop reads the terminating zero), and with three or
    more hosts the loop reads past the end of the string. *)
Theorem heteroSetup_default_nodes f h st ch :
  num_nodes st = -1 → 1 ≤ Num h < 2 ^ 31 → 0 ≤ my_host_id h →
  personality_set h = String ch "" → scaling h = true →
  let v := if bool_decide (ch = "c"%char) then scalecpu h else scalegpu h in
  let dev := if bool_decide (personalityOf ch = GPU_CUDA) && (gpudevice st =? -1)
             then f (personality_set h) (Num h) else gpudevice st in
  heteroSetup f h st
  = if Num h =? 1
    then Some (mkSetup (Num h) (personalityOf ch) dev (scaleFactor st ++ [v]))
    else if Num h =? 2
    then Some (mkSetup (Num h) (personalityOf ch) dev
                       (scaleFactor st ++ [v; scalegpu h]))
    else None.
Proof.
  destruct h as [id num pset sc sg]. simpl.
  intros Hdef Hnum Hid -> Hscale.
  assert (to_int num = num) as Hint
    by (unfold to_int; rewrite Z.mod_small by lia; lia).
  assert (to_unsigned num = num) as Hun
    by (unfold to_unsigned; rewrite Z.mod_small; lia).
  assert (num / num = 1) as Hdiv by (apply Z.div_same; lia).
  unfold heteroSetup.
  cbn [num_nodes Num personality_set my_host_id scalecpu scalegpu].
  rewrite Hdef. cbn [Z.eqb Pos.eqb]. rewrite Hint, Hun, Hdiv.
  rewrite (proj2 (Z.eqb_neq num 0)) by lia.
  unfold scaling in Hscale. simpl in Hscale. rewrite Hscale.
  change (Z.of_nat (String.length (String ch "")) =? 1) with true.
  cbn [Z.eqb]. rewrite Z.mod_1_r.
  change (c_str_at (String ch "") 0) with (Some ch).
  cbn [mbind option_bind].
  destruct (Z.eqb_spec num 1) as [->|H1]; [done|].
  destruct (Z.eqb_spec num 2) as [->|H2].
  - change (Z.to_nat 2) with 2%nat. cbn [seq scale_loop personality_set].
    change (c_str_at (String ch "") (Z.of_nat 0 mod 2)) with (Some ch).
    change (c_str_at (String ch "") (Z.of_nat 1 mod 2)) with (Some Ascii.zero).
    cbn [mbind option_bind scalecpu scalegpu].
    by rewrite <- app_assoc.
  - destruct (scale_loop _ _ _ _) as [sf|] eqn:Hloop; [|done].
    assert (is_Some (scale_loop (mkHost id num (String ch "") sc sg) num
                       (seq 0 (Z.to_nat num)) (scaleFactor st))) as Hsome
      by eauto.
    apply scale_loop_defined in Hsome; [|lia].
    apply indices_in_bounds in Hsome; [|simpl; lia..].
    simpl in Hsome. lia.
Qed.
End start_up_properties.

(** * The further properties on concrete inputs *)
Section further_runs.
Import Lattice DistBench.

Lemma mesh_build_segment : build 10 mesh (seed mesh 4) = Ok builtCavity.
Proof. vm_compute. reflexivity. Qed.

Lemma mesh_self_in_circle n :
  n ∈ Graph.nodes mesh →
  inCircle (Graph.getData mesh n) (getCenter (Graph.getData mesh n)) = true.
Proof. intros _. by do 6 (destruct n as [|n]; [done|]). Qed.

(** The cavity grown on the mesh is closed. *)
Lemma cavity_closed_witness :
  frontier builtCavity = [] ∧
  ∀ n m, n ∈ pre builtCavity → m ∈ Graph.edges mesh n →
         let member :=
           inCircle (Graph.getData mesh m) (center builtCavity) = true ∧
           ¬ (dim builtCavity = 2%Z ∧
              Element_dim (Graph.getData mesh m) = 2%Z ∧
              m ≠ centerNode builtCavity) in
         (member → m ∈ pre builtCavity) ∧
         (¬ member →
          boundaryEdge mesh n m ∈ connections builtCavity ∨
          found (connections builtCavity) (boundaryEdge mesh n m) = true).
Proof.
  apply (cavity_closed 10 mesh blank 0 (seed mesh 1)).
  - exact mesh_initialize.
  - exact mesh_build.
Defined.

(** Triangle 0 is obtuse at C: its neighbours 2 and 3 share an edge through
    C, neighbour 1 is the first across the obtuse corner. *)
Lemma getOpposite_first_witness :
  ∃ l1 l2, Graph.edges mesh 0 = l1 ++ 1 :: l2 ∧
           Forall (λ x, avoidsObtuse mesh (Graph.getData mesh 0) x = false) l1 ∧
           avoidsObtuse mesh (Graph.getData mesh 0) 1 = true.
Proof. apply (getOpposite_first mesh 0 1). reflexivity. Defined.

(** The cavity re-anchored on segment 4 has consistent anchor fields. *)
Lemma anchor_fields_agree_witness :
  anchored mesh builtCavity ∧
  anchorNodes builtCavity
  = (if bool_decide (dim builtCavity = 2%Z) then 2 else 0).
Proof.
  apply (anchor_fields_agree 10 mesh blank 0 (seed mesh 1)).
  - exact mesh_initialize.
  - exact mesh_build.
Defined.

(** Both triangles of the cavity contain the midpoint of segment 4 in their
    circle. *)
Lemma pre_nodes_in_circle_witness :
  NoDup (pre builtCavity) ∧
  ∀ n, n ∈ pre builtCavity → n ≠ centerNode builtCavity →
       inCircle (Graph.getData mesh n) (center builtCavity) = true.
Proof.
  apply (pre_nodes_in_circle 10 mesh blank 0 (seed mesh 1)).
  - exact mesh_initialize.
  - exact mesh_build.
Defined.

(** The boundary entry towards segment 5, a second segment. *)
Lemma connections_lead_outside_witness :
  5 ∈ Graph.edges mesh 1 ∧
  ([B; D] : @Edge geometry)
  = getRelatedEdge (Graph.getData mesh 5) (Graph.getData mesh 1) ∧
  (inCircle (Graph.getData mesh 5) (center builtCavity) = false ∨
   (dim builtCavity = 2%Z ∧ Element_dim (Graph.getData mesh 5) = 2%Z ∧
    5 ≠ centerNode builtCavity)).
Proof.
  apply (connections_lead_outside 10 mesh blank 0 (seed mesh 1) builtCavity
           mesh_initialize mesh_build (mkEdgeTuple geometry 1 5 [B; D])).
  by left.
Defined.

(** Building from the seed on segment 4 keeps the anchor. *)
Lemma segment_anchor_stable_witness :
  dim builtCavity = 2%Z ∧ center builtCavity = center (seed mesh 4) ∧
  centerNode builtCavity = centerNode (seed mesh 4) ∧
  centerElement builtCavity = centerElement (seed mesh 4) ∧
  post builtCavity = post (seed mesh 4) ∧
  pre (seed mesh 4) `prefix_of` pre builtCavity ∧
  connections (seed mesh 4) `prefix_of` connections builtCavity.
Proof.
  apply (segment_anchor_stable 10 mesh (seed mesh 4) builtCavity).
  - reflexivity.
  - exact mesh_build_segment.
Defined.

(** Expanding the triangle cavity towards triangle 0 pushes it. *)
Lemma frontier_within_pre_witness :
  Forall (λ n, n ∈ pre (push (seed mesh 1) 0)) (frontier (push (seed mesh 1) 0)).
Proof.
  apply Forall_forall.
  apply (frontier_within_pre 10 mesh (seed mesh 1) 1 0).
  - simpl. by intros n Hn.
  - vm_compute. reflexivity.
Defined.

(** The bad triangle 0 is in [pre]: it is not queued again. *)
Lemma update_requeues_survivor_witness :
  (update grownMesh.1 grownMesh.2 0 []).2
  = ([] ++ filter (λ n, isBad (Graph.getData grownMesh.1 n))
                  (PostGraph.nodes (post grownMesh.2)))
    ++ (if bool_decide (0 ∈ pre grownMesh.2) then [] else [0]).
Proof.
  apply (update_requeues_survivor 10 mesh blank 0).
  - exact mesh_wf.
  - exact mesh_contains_0.
  - exact mesh_grow.
Defined.

(** [computePost] on the mesh keeps it well formed. *)
Lemma computePost_only_allocates_witness :
  Graph.wf (computePost mesh builtCavity).1.
Proof.
  apply (proj2 (proj2 (computePost_only_allocates mesh builtCavity))).
  exact mesh_wf.
Defined.

(** The post edges of the cavity grown on the mesh. *)
Lemma post_edges_linked_witness :
  postEdgesLinked builtCavity (Graph.nextId mesh + anchorNodes builtCavity)
                  (computePost mesh builtCavity).1
                  (computePost mesh builtCavity).2.
Proof. apply (post_edges_linked mesh builtCavity). reflexivity. Defined.

(** The commit on the mesh leaves a well-formed graph. *)
Lemma commit_keeps_graph_wf_witness :
  Graph.wf (update grownMesh.1 grownMesh.2 0 []).1 ∧
  ∀ n, n ∈ pre grownMesh.2 →
       (n ∉ Graph.nodes (update grownMesh.1 grownMesh.2 0 []).1) ∧
       ∀ a, n ∉ Graph.edges (update grownMesh.1 grownMesh.2 0 []).1 a.
Proof.
  apply (commit_keeps_graph_wf 10 mesh blank 0).
  - exact mesh_wf.
  - exact mesh_contains_0.
  - exact mesh_self_in_circle.
  - exact mesh_grow.
Defined.

(** Three arguments joined by two blanks. *)
Lemma commandLine_joins_witness :
  commandLine 3 ["bfs"; "-t"; "4"]%string
  = String.concat " " ["bfs"; "-t"; "4"]%string ∧
  String.length (commandLine 3 ["bfs"; "-t"; "4"]%string)
  = (foldr (λ a n, String.length a + n) 0 ["bfs"; "-t"; "4"]%string
     + (length ["bfs"; "-t"; "4"]%string - 1))%nat.
Proof.
  apply (proj2 (commandLine_joins 3 ["bfs"; "-t"; "4"]%string)). reflexivity.
Defined.

Lemma heteroSetup_host1of4 :
  heteroSetup firstDevice host1of4 twoNodes
  = Some (mkSetup 2 GPU_CUDA 0 [1; 2; 1; 2]%Z).
Proof. reflexivity. Qed.

(** Four hosts on two nodes, scaling on: the entries follow "cg". *)
Lemma heteroSetup_scaleFactor_witness :
  let st' := mkSetup 2 GPU_CUDA 0 [1; 2; 1; 2]%Z in
  let nn := to_unsigned (num_nodes st') in
  let len := Z.of_nat (String.length (personality_set host1of4)) in
  ∃ new,
    scaleFactor st' = scaleFactor twoNodes ++ new ∧
    (len = (Num host1of4 / nn)%Z →
     (1 < scalecpu host1of4)%Z ∨ (1 < scalegpu host1of4)%Z →
     length new = Z.to_nat (Num host1of4) ∧
     ∀ i, (i < Z.to_nat (Num host1of4))%nat →
          let k := (Z.of_nat i mod nn)%Z in
          (k ≤ len)%Z ∧
          ((k < len)%Z →
           ∃ ch, String.get (Z.to_nat k) (personality_set host1of4) = Some ch ∧
                 new !! i = Some (if bool_decide (ch = "c"%char)
                                  then scalecpu host1of4
                                  else scalegpu host1of4)) ∧
          (k = len → new !! i = Some (scalegpu host1of4))) ∧
    (len ≠ (Num host1of4 / nn)%Z
     ∨ ((scalecpu host1of4 ≤ 1)%Z ∧ (scalegpu host1of4 ≤ 1)%Z) → new = []).
Proof.
  apply (heteroSetup_scaleFactor firstDevice host1of4 twoNodes
           (mkSetup 2 GPU_CUDA 0 [1; 2; 1; 2]%Z)).
  exact heteroSetup_host1of4.
Defined.

(** Host 1 reads 'g' and has no chosen device: it gets one. *)
Lemma heteroSetup_gpudevice_witness :
  let st' := mkSetup 2 GPU_CUDA 0 [1; 2; 1; 2]%Z in
  let nn := to_unsigned (num_nodes st') in
  let len := Z.of_nat (String.length (personality_set host1of4)) in
  (len ≠ (Num host1of4 / nn)%Z →
   personality st' = personality twoNodes ∧
   gpudevice st' = gpudevice twoNodes ∧
   scaleFactor st' = scaleFactor twoNodes) ∧
  (len = (Num host1of4 / nn)%Z →
   ∃ ch, String.get (Z.to_nat (my_host_id host1of4 mod len))
                    (personality_set host1of4) = Some ch ∧
         (ch = "g"%char →
          personality st' = GPU_CUDA ∧
          gpudevice st' = (if (gpudevice twoNodes =? -1)%Z
                           then firstDevice (personality_set host1of4)
                                            (num_nodes st')
                           else gpudevice twoNodes)) ∧
         (ch = "o"%char →
          personality st' = GPU_OPENCL ∧ gpudevice st' = gpudevice twoNodes) ∧
         (ch ≠ "g"%char → ch ≠ "o"%char →
          personality st' = CPU ∧ gpudevice st' = gpudevice twoNodes)) ∧
  (gpudevice twoNodes ≠ (-1)%Z → gpudevice st' = gpudevice twoNodes).
Proof.
  apply (heteroSetup_gpudevice firstDevice host1of4 twoNodes
           (mkSetup 2 GPU_CUDA 0 [1; 2; 1; 2]%Z)).
  - simpl. lia.
  - exact heteroSetup_host1of4.
Defined.

(** Two nodes with two hosts each: the scale loop stays inside "cg". *)
Lemma heteroSetup_defined_witness :
  is_Some (heteroSetup firstDevice host1of4 twoNodes) ↔
  to_unsigned (defaulted host1of4 twoNodes) ≠ 0%Z ∧
  (Z.of_nat (String.length (personality_set host1of4))
   = (Num host1of4 / to_unsigned (defaulted host1of4 twoNodes))%Z →
   Z.of_nat (String.length (personality_set host1of4)) ≠ 0%Z ∧
   (scaling host1of4 = true →
    (Z.min (to_unsigned (defaulted host1of4 twoNodes)) (Num host1of4)
     ≤ Z.of_nat (String.length (personality_set host1of4)) + 1)%Z)).
Proof.
  apply (heteroSetup_defined firstDevice host1of4 twoNodes); simpl; lia.
Defined.

(** Two hosts and the default [num_nodes]: host 1 gets [scalegpu]. *)
Lemma heteroSetup_default_nodes_witness :
  heteroSetup firstDevice host0of2 defaultNodes
  = Some (mkSetup 2 CPU (-1) [2; 3]%Z).
Proof.
  apply (heteroSetup_default_nodes firstDevice host0of2 defaultNodes "c"%char);
    [reflexivity | simpl; lia | simpl; lia | reflexivity | reflexivity].
Defined.
End further_runs.

Section personality_names.
Import DistBench.

(** The names of the personalities are pairwise different and none is the
    empty string [personality_str] returns for an invalid value. *)
Lemma personality_str_inj (p q : Personality) :
  personality_str p = personality_str q → p = q.
Proof. by destruct p, q. Qed.

Lemma personality_str_nonempty (p : Personality) :
  personality_str p ≠ ""%string.
Proof. by destruct p. Qed.
End personality_names.
